(** * Marching cubes post-processing of skimage.measure (_marching_cubes.py)

    Shallow embedding of [marching_cubes], [mesh_surface_area] and
    [correct_mesh_orientation].  Floating-point values are modelled as real
    numbers ([R]); [x ** 2] is [x * x] and [x ** 0.5] is [sqrt x].  Python
    exceptions are the [Err] branch of a small error monad, numpy arrays of
    rows are lists, and numpy fancy indexing follows Python's index rules
    (negative indices count from the end, anything else raises IndexError). *)

From Stdlib Require Import Reals Lra Lia List String ZArith Bool Arith Permutation.
Import ListNotations.

Open Scope R_scope.

(** ** Python exceptions and the error monad *)

Inductive exn : Type :=
| ValueError (msg : string)
| IndexError (msg : string).

Inductive result (A : Type) : Type :=
| Ok (a : A)
| Err (e : exn).
Arguments Ok {A} a.
Arguments Err {A} e.

Definition bind {A B} (m : result A) (k : A -> result B) : result B :=
  match m with
  | Ok a => k a
  | Err e => Err e
  end.

Notation "'let*' x := m 'in' k" := (bind m (fun x => k))
  (at level 200, x name, m at level 100, k at level 200).

(** ** Three-component vectors (rows of an (N, 3) float array) *)

Definition vec3 : Type := (R * R * R)%type.

Definition vadd (u v : vec3) : vec3 :=
  let '(x1, y1, z1) := u in let '(x2, y2, z2) := v in (x1 + x2, y1 + y2, z1 + z2).

Definition vsub (u v : vec3) : vec3 :=
  let '(x1, y1, z1) := u in let '(x2, y2, z2) := v in (x1 - x2, y1 - y2, z1 - z2).

(** Division of a row by a scalar ([v / s] with broadcasting). *)
Definition vdiv (v : vec3) (s : R) : vec3 :=
  let '(x, y, z) := v in (x / s, y / s, z / s).

(** [np.cross] of two rows. *)
Definition cross (u v : vec3) : vec3 :=
  let '(ax, ay, az) := u in let '(bx, by_, bz) := v in
  (ay * bz - az * by_, az * bx - ax * bz, ax * by_ - ay * bx).

(** [(v ** 2).sum()] of a row. *)
Definition sumsq (v : vec3) : R :=
  let '(x, y, z) := v in x * x + y * y + z * z.

(** [(u * v).sum()] of two rows. *)
Definition dot (u v : vec3) : R :=
  let '(x1, y1, z1) := u in let '(x2, y2, z2) := v in x1 * x2 + y1 * y2 + z1 * z2.

(** [v / (sum(v ** 2) ** 0.5)] *)
Definition normalize (v : vec3) : vec3 := vdiv v (sqrt (sumsq v)).

(** [.sum()] of a 1-d float array. *)
Definition np_sum (l : list R) : R := fold_right Rplus 0 l.

(** Element-wise operation on two arrays of the same length. *)
Fixpoint map2 {A B C} (f : A -> B -> C) (l1 : list A) (l2 : list B) : list C :=
  match l1, l2 with
  | x :: l1', y :: l2' => f x y :: map2 f l1' l2'
  | _, _ => []
  end.

(** ** Faces and fancy indexing [verts[faces]] *)

(** A row of an (F, 3) int array. *)
Definition face : Type := (Z * Z * Z)%type.

(** A gathered triangle: the three vertex rows of a face. *)
Definition tri : Type := (vec3 * vec3 * vec3)%type.

(** Python indexing of a sequence by an integer. *)
Definition py_index {A} (l : list A) (i : Z) : option A :=
  let n := Z.of_nat (List.length l) in
  if (0 <=? i)%Z && (i <? n)%Z then nth_error l (Z.to_nat i)
  else if (- n <=? i)%Z && (i <? 0)%Z then nth_error l (Z.to_nat (n + i))
  else None.

Definition resolve (verts : list vec3) (f : face) : option tri :=
  let '(i0, i1, i2) := f in
  match py_index verts i0, py_index verts i1, py_index verts i2 with
  | Some v0, Some v1, Some v2 => Some (v0, v1, v2)
  | _, _, _ => None
  end.

(** [verts[faces]]: an (F, 3, 3) array, or IndexError if any index of any
    face is out of bounds. *)
Fixpoint gather (verts : list vec3) (faces : list face) : result (list tri) :=
  match faces with
  | [] => Ok []
  | f :: fs =>
      match resolve verts f with
      | Some t => let* ts := gather verts fs in Ok (t :: ts)
      | None => Err (IndexError "index out of bounds"%string)
      end
  end.

Definition corner0 (t : tri) : vec3 := let '(v0, _, _) := t in v0.
Definition corner1 (t : tri) : vec3 := let '(_, v1, _) := t in v1.
Definition corner2 (t : tri) : vec3 := let '(_, _, v2) := t in v2.

(** ** [mesh_surface_area] *)

Definition mesh_surface_area (verts : list vec3) (faces : list face) : result R :=
  let* actual_verts := gather verts faces in
  let a := map (fun t => vsub (corner0 t) (corner1 t)) actual_verts in
  let b := map (fun t => vsub (corner0 t) (corner2 t)) actual_verts in
  Ok (np_sum (map (fun c => sqrt (sumsq c)) (map2 cross a b)) / 2).

(** ** Volumes and the store of mesh arrays *)

(** An n-dimensional float array: its shape and its C-ordered data. *)
Record ndarray : Type := mkArray { shape : list nat; data : list R }.

Definition ndim (v : ndarray) : nat := List.length (shape v).

(** The numpy arrays a call can see, by address: vertex arrays ((V, 3)
    floats) and face arrays ((F, 3) ints).  Python passes [verts] and
    [faces] by reference; [faces.copy()] allocates a fresh array. *)
Record heap : Type := mkHeap { vheap : list (list vec3); fheap : list (list face) }.

Definition unbound : exn := ValueError "unbound array reference"%string.

Definition load_verts (h : heap) (a : nat) : result (list vec3) :=
  match nth_error (vheap h) a with Some l => Ok l | None => Err unbound end.

Definition load_faces (h : heap) (a : nat) : result (list face) :=
  match nth_error (fheap h) a with Some l => Ok l | None => Err unbound end.

(** [arr.copy()] of a face array: a fresh address at the end of the store. *)
Definition alloc_faces (h : heap) (arr : list face) : heap * nat :=
  (mkHeap (vheap h) (fheap h ++ [arr]), List.length (fheap h)).

Fixpoint list_replace {A} (l : list A) (i : nat) (x : A) : list A :=
  match l, i with
  | [], _ => []
  | _ :: l', O => x :: l'
  | y :: l', S i' => y :: list_replace l' i' x
  end.

Definition store_faces (h : heap) (a : nat) (arr : list face) : heap :=
  mkHeap (vheap h) (list_replace (fheap h) a arr).

(** ** numpy helpers used by [correct_mesh_orientation] *)

Definition Rltb (x y : R) : bool := if Rlt_dec x y then true else false.

(** [(mask).nonzero()[0]]: the positions holding [true], from [k] on. *)
Fixpoint nonzero_from (k : nat) (mask : list bool) : list nat :=
  match mask with
  | [] => []
  | b :: mask' => if b then k :: nonzero_from (S k) mask' else nonzero_from (S k) mask'
  end.

Definition nonzero (mask : list bool) : list nat := nonzero_from 0 mask.

(** [arr[indices]] on the rows of a face array. *)
Fixpoint take_rows (arr : list face) (indices : list nat) : result (list face) :=
  match indices with
  | [] => Ok []
  | i :: is =>
      match nth_error arr i with
      | Some r => let* rs := take_rows arr is in Ok (r :: rs)
      | None => Err (IndexError "index out of bounds"%string)
      end
  end.

(** [row[::-1]] of a face row. *)
Definition rev3 (f : face) : face := let '(i0, i1, i2) := f in (i2, i1, i0).

(** [arr[i] = r] *)
Fixpoint set_row (arr : list face) (i : nat) (r : face) : result (list face) :=
  match arr, i with
  | [], _ => Err (IndexError "index out of bounds"%string)
  | _ :: arr', O => Ok (r :: arr')
  | x :: arr', S i' => let* arr'' := set_row arr' i' r in Ok (x :: arr'')
  end.

(** [arr[indices] = rows], one row after the other. *)
Fixpoint set_rows (arr : list face) (ps : list (nat * face)) : result (list face) :=
  match ps with
  | [] => Ok arr
  | (i, r) :: ps' => let* arr' := set_row arr i r in set_rows arr' ps'
  end.

(** Python's [needle in hay] on strings. *)
Fixpoint contains (needle hay : string) : bool :=
  prefix needle hay ||
  match hay with
  | EmptyString => false
  | String _ hay' => contains needle hay'
  end.

Definition mode_error (gradient_direction : string) : exn :=
  ValueError ("Incorrect input " ++ gradient_direction
              ++ " in `gradient_direction`, see docstring.")%string.

(** ** [correct_mesh_orientation] *)

Section Orientation.

(** The gradient fields and their sampler come from numpy and scipy:
    [np_gradient volume spacing] is [np.gradient(volume, *spacing)] (three
    component fields, or the exception numpy raises, e.g. for an axis with
    fewer than two samples), and [map_coordinates g p] is
    [ndi.map_coordinates(g, ...)] evaluated at the point [p]. *)
Context {field : Type}.
Variable np_gradient : ndarray -> vec3 -> result (field * field * field).
Variable map_coordinates : field -> vec3 -> R.

(** Lines 232-257: edge vectors, centroids, interpolated and normalized
    gradients, normalized face normals and their dot products, for the
    gathered triangles [actual_verts]. *)
Definition dotproducts_of (grad_x grad_y grad_z : field) (actual_verts : list tri) : list R :=
  let a := map (fun t => vsub (corner0 t) (corner1 t)) actual_verts in
  let b := map (fun t => vsub (corner0 t) (corner2 t)) actual_verts in
  let centroids :=
    map (fun t => vdiv (vadd (vadd (corner0 t) (corner1 t)) (corner2 t)) 3) actual_verts in
  let grad_centroids_x := map (map_coordinates grad_x) centroids in
  let grad_centroids_y := map (map_coordinates grad_y) centroids in
  let grad_centroids_z := map (map_coordinates grad_z) centroids in
  let grad_centroids :=
    map2 (fun xy z => let '(x, y) := xy in (x, y, z))
         (map2 pair grad_centroids_x grad_centroids_y) grad_centroids_z in
  let grad_centroids := map normalize grad_centroids in
  let crosses := map normalize (map2 cross a b) in
  map2 dot grad_centroids crosses.

Definition correct_mesh_orientation (volume : ndarray) (h : heap) (verts faces : nat)
    (spacing : vec3) (gradient_direction : string) : result (heap * nat) :=
  let* grads := np_gradient volume spacing in
  let '(grad_x, grad_y, grad_z) := grads in
  let* vs := load_verts h verts in
  let* fs := load_faces h faces in
  let* actual_verts := gather vs fs in
  let dotproducts := dotproducts_of grad_x grad_y grad_z actual_verts in
  let* indices :=
    if contains "descent" gradient_direction then
      Ok (nonzero (map (fun d => Rltb d 0) dotproducts))
    else if contains "ascent" gradient_direction then
      Ok (nonzero (map (fun d => Rltb 0 d) dotproducts))
    else Err (mode_error gradient_direction) in
  let '(h1, faces_corrected) := alloc_faces h fs in
  let* arr := load_faces h1 faces_corrected in
  let* rows := take_rows arr indices in
  let* arr' := set_rows arr (combine indices (map rev3 rows)) in
  Ok (store_faces h1 faces_corrected arr', faces_corrected).

(** *** The claims' reading of the orientation policy (one face at a time) *)

(** The two documented values of [gradient_direction]. *)
Inductive mode : Type := Descent | Ascent.

Definition mode_string (m : mode) : string :=
  match m with Descent => "descent"%string | Ascent => "ascent"%string end.

Definition opposite (m : mode) : mode :=
  match m with Descent => Ascent | Ascent => Descent end.

(** How the if/elif on [gradient_direction] reads a string. *)
Definition parse_direction (gradient_direction : string) : option mode :=
  if contains "descent" gradient_direction then Some Descent
  else if contains "ascent" gradient_direction then Some Ascent
  else None.

(** Mean of the three vertices of a triangle. *)
Definition centroid (t : tri) : vec3 :=
  let '(v0, v1, v2) := t in vdiv (vadd (vadd v0 v1) v2) 3.

(** Normalized gradient at the centroid, dotted with the normalized normal
    [(v0 - v1) x (v0 - v2)]. *)
Definition face_dot (grad_x grad_y grad_z : field) (t : tri) : R :=
  let '(v0, v1, v2) := t in
  let c := centroid t in
  dot (normalize (map_coordinates grad_x c, map_coordinates grad_y c, map_coordinates grad_z c))
      (normalize (cross (vsub v0 v1) (vsub v0 v2))).

(** Mis-orientation: a negative dot product in descent mode, a positive one
    in ascent mode. *)
Definition misoriented (m : mode) (d : R) : Prop :=
  match m with Descent => d < 0 | Ascent => 0 < d end.

Definition flag_of (m : mode) (d : R) : bool :=
  match m with Descent => Rltb d 0 | Ascent => Rltb 0 d end.

Definition face_flag (m : mode) (vs : list vec3) (grad_x grad_y grad_z : field) (f : face) : bool :=
  match resolve vs f with
  | Some t => flag_of m (face_dot grad_x grad_y grad_z t)
  | None => false
  end.

(** Every face reversed exactly when it is mis-oriented. *)
Definition oriented_faces (m : mode) (vs : list vec3) (grad_x grad_y grad_z : field)
    (fs : list face) : list face :=
  map (fun f => if face_flag m vs grad_x grad_y grad_z f then rev3 f else f) fs.

End Orientation.

(** ** [marching_cubes] *)

(** numpy's [.min()] and [.max()]: ValueError on a zero-size array. *)
Definition np_min (l : list R) : result R :=
  match l with
  | [] => Err (ValueError "zero-size array to reduction operation minimum which has no identity"%string)
  | x :: l' => Ok (fold_left Rmin l' x)
  end.

Definition np_max (l : list R) : result R :=
  match l with
  | [] => Err (ValueError "zero-size array to reduction operation maximum which has no identity"%string)
  | x :: l' => Ok (fold_left Rmax l' x)
  end.

Definition vec3_eq_dec (u v : vec3) : {u = v} + {u <> v}.
Proof. repeat decide equality; apply Req_dec_T. Defined.

(** Position of the first row equal to [v] (exact equality). *)
Fixpoint find_vert (v : vec3) (l : list vec3) : option nat :=
  match l with
  | [] => None
  | w :: l' =>
      if vec3_eq_dec v w then Some O
      else match find_vert v l' with Some i => Some (S i) | None => None end
  end.

(** Modelled from the spec: [_marching_cubes_cy.unpack_unique_verts], the
    Cython mesh builder (section 4.4, vertex welding), whose source is not in
    this tree.  It scans the raw triangles in order, keeps a mapping from
    exact coordinate value to index (here the list of vertices seen so far,
    indexed by position), assigns indices in first-seen order and emits one
    index triple per raw triangle. *)
Definition weld_vertex (vs : list vec3) (v : vec3) : list vec3 * Z :=
  match find_vert v vs with
  | Some i => (vs, Z.of_nat i)
  | None => (vs ++ [v], Z.of_nat (List.length vs))
  end.

Definition weld_triangle (st : list vec3 * list face) (t : tri) : list vec3 * list face :=
  let '(vs, fs) := st in
  let '(v0, v1, v2) := t in
  let '(vs0, i0) := weld_vertex vs v0 in
  let '(vs1, i1) := weld_vertex vs0 v1 in
  let '(vs2, i2) := weld_vertex vs1 v2 in
  (vs2, fs ++ [(i0, i1, i2)]).

Definition unpack_unique_verts (raw_faces : list tri) : list vec3 * list face :=
  fold_left weld_triangle raw_faces ([], []).

Definition dimension_error : exn :=
  ValueError "Input volume must have 3 dimensions."%string.

Definition level_error : exn :=
  ValueError "Contour level must be within volume data range."%string.

Section MarchingCubes.

(** [_marching_cubes_cy.iterate_and_store_3d], the Cython cell traversal
    (not in this tree): any function from the volume, the level and the
    spacing to a stream of raw triangles.  Everything below holds for each. *)
Variable iterate_and_store_3d : ndarray -> R -> vec3 -> list tri.

Definition marching_cubes (volume : ndarray) (level : R) (spacing : vec3)
    : result (list vec3 * list face) :=
  if negb (Nat.eqb (ndim volume) 3) then Err dimension_error
  else
    let* mn := np_min (data volume) in
    if Rltb level mn then Err level_error
    else
      let* mx := np_max (data volume) in
      if Rltb mx level then Err level_error
      else
        let raw_faces := iterate_and_store_3d volume level spacing in
        let '(verts, faces) := unpack_unique_verts raw_faces in
        Ok (verts, faces).

End MarchingCubes.

(** ** Helpers for stating the claims *)

(** A gathered triangle with its corners in reverse order. *)
Definition rev_tri (t : tri) : tri := let '(v0, v1, v2) := t in (v2, v1, v0).

Definition vneg (v : vec3) : vec3 := let '(x, y, z) := v in (- x, - y, - z).

(** One half of the Euclidean norm of [(v0 - v1) x (v0 - v2)]. *)
Definition face_area (verts : list vec3) (f : face) : R :=
  match resolve verts f with
  | Some (v0, v1, v2) => sqrt (sumsq (cross (vsub v0 v1) (vsub v0 v2))) / 2
  | None => 0
  end.

(** Every index of the face is a position of a list of [n] vertices. *)
Definition face_in_bounds (n : nat) (f : face) : Prop :=
  let '(i0, i1, i2) := f in
  (0 <= i0 < Z.of_nat n)%Z /\ (0 <= i1 < Z.of_nat n)%Z /\ (0 <= i2 < Z.of_nat n)%Z.

(** Invariant of the welding state: distinct vertices, faces in bounds. *)
Definition weld_inv (st : list vec3 * list face) : Prop :=
  NoDup (fst st) /\ forall f, In f (snd st) -> face_in_bounds (List.length (fst st)) f.

(** Every face of the list has all three indices accepted by Python
    indexing into [vs]. *)
Definition all_resolve (vs : list vec3) (fs : list face) : bool :=
  forallb (fun f => match resolve vs f with Some _ => true | None => false end) fs.

(** The non-negative index that Python indexing uses for [i] on a sequence
    of length [n]. *)
Definition norm_index (n : nat) (i : Z) : Z :=
  if (- Z.of_nat n <=? i)%Z && (i <? 0)%Z then (i + Z.of_nat n)%Z else i.

Definition norm_face (n : nat) (f : face) : face :=
  let '(i0, i1, i2) := f in (norm_index n i0, norm_index n i1, norm_index n i2).

(** [f'] lists the indices of [f] in one of the six possible orders. *)
Definition reorder3 (f f' : face) : Prop :=
  let '(a, b, c) := f in
  f' = (a, b, c) \/ f' = (a, c, b) \/ f' = (b, a, c) \/
  f' = (b, c, a) \/ f' = (c, a, b) \/ f' = (c, b, a).

Definition vscale (s : R) (v : vec3) : vec3 :=
  let '(x, y, z) := v in (s * x, s * y, s * z).

(** Half the norm of [(v0 - v1) x (v0 - v2)] for a triangle given by its
    corners. *)
Definition tri_area (t : tri) : R :=
  let '(v0, v1, v2) := t in sqrt (sumsq (cross (vsub v0 v1) (vsub v0 v2))) / 2.

(** ** Concrete inputs *)

(** [np.gradient(volume, *spacing)] with three spacings: numpy raises when the
    volume is not 3-d or when an axis has fewer than [edge_order + 1 = 2]
    samples; otherwise it returns the three component fields, named here by
    their axis. *)
Definition np_gradient_model (volume : ndarray) (spacing : vec3) : result (nat * nat * nat) :=
  if negb (Nat.eqb (ndim volume) 3) || existsb (fun n => Nat.ltb n 2) (shape volume) then
    Err (ValueError "Shape of array too small to calculate a numerical gradient, at least (edge_order + 1) elements are required."%string)
  else Ok (0%nat, 1%nat, 2%nat).

(** Sampling a field whose gradient is the constant (1, 0, 0). *)
Definition const_x_gradient (axis : nat) (p : vec3) : R :=
  if Nat.eqb axis 0 then 1 else 0.

(** A 2x2x2 volume with one corner at 1 and the others at 0. *)
Definition cube_volume : ndarray := mkArray [2; 2; 2]%nat [1; 0; 0; 0; 0; 0; 0; 0].

(** A 1x1x1 volume. *)
Definition point_volume : ndarray := mkArray [1; 1; 1]%nat [0].

Definition ex_triangle : tri := ((0, 0, 0), (0, 1, 0), (0, 0, 1)).

Definition ex_verts : list vec3 := [(0, 0, 0); (0, 1, 0); (0, 0, 1)].

Definition ex_face : face := (0, 1, 2)%Z.

(** [ex_verts] at address 0 and [[ex_face]] at address 0. *)
Definition ex_heap : heap := mkHeap [ex_verts] [[ex_face]].

(** The same, with a face index past the end of the vertices. *)
Definition bad_heap : heap := mkHeap [ex_verts] [[(0, 1, 5)%Z]].

(** The same vertices with a face whose first two corners coincide. *)
Definition flat_heap : heap := mkHeap [ex_verts] [[(0, 0, 1)%Z]].

(** A traversal emitting [ex_triangle] whatever its input. *)
Definition ex_iterate (volume : ndarray) (level : R) (spacing : vec3) : list tri := [ex_triangle].

(** * Facts *)

(** ** Lists, fancy indexing and row assignment *)

Lemma map2_map {A B C D} (f : B -> C -> D) (g : A -> B) (k : A -> C) (l : list A) :
  map2 f (map g l) (map k l) = map (fun x => f (g x) (k x)) l.
Proof. induction l as [|x l IH]; simpl; [reflexivity | now rewrite IH]. Qed.

Lemma map2_map_l {A B C} (f : B -> A -> C) (g : A -> B) (l : list A) :
  map2 f (map g l) l = map (fun x => f (g x) x) l.
Proof. induction l as [|x l IH]; simpl; [reflexivity | now rewrite IH]. Qed.

Lemma gather_ok (vs : list vec3) (fs : list face) :
  (forall f, In f fs -> resolve vs f <> None) ->
  exists ts, gather vs fs = Ok ts /\ Forall2 (fun f t => resolve vs f = Some t) fs ts.
Proof.
  induction fs as [|f fs IH]; intros Hv; simpl.
  - exists []. split; [reflexivity | constructor].
  - destruct (resolve vs f) as [t|] eqn:Ht.
    + destruct IH as [ts [Hg HF]]; [intros g Hg; apply Hv; now right|].
      rewrite Hg. exists (t :: ts). split; [reflexivity | now constructor].
    + exfalso. apply (Hv f); [now left | exact Ht].
Qed.

Lemma gather_inv (vs : list vec3) (fs : list face) (ts : list tri) :
  gather vs fs = Ok ts -> Forall2 (fun f t => resolve vs f = Some t) fs ts.
Proof.
  revert ts. induction fs as [|f fs IH]; intros ts Hg; simpl in Hg.
  - injection Hg as <-. constructor.
  - destruct (resolve vs f) as [t|] eqn:Ht; [|discriminate].
    destruct (gather vs fs) as [ts'|e] eqn:Hg'; simpl in Hg; [|discriminate].
    injection Hg as <-. constructor; auto.
Qed.

Lemma gather_err (vs : list vec3) (fs : list face) (e : exn) :
  gather vs fs = Err e -> exists f, In f fs /\ resolve vs f = None.
Proof.
  induction fs as [|f fs IH]; intros Hg; simpl in Hg; [discriminate|].
  destruct (resolve vs f) as [t|] eqn:Ht.
  - destruct (gather vs fs) eqn:Hg'; simpl in Hg; [discriminate|].
    destruct (IH Hg) as [g [Hin Hg2]]. exists g. split; [now right | exact Hg2].
  - exists f. split; [now left | exact Ht].
Qed.

Lemma nonzero_from_S (k : nat) (mask : list bool) :
  nonzero_from (S k) mask = map S (nonzero_from k mask).
Proof.
  revert k. induction mask as [|b mask IH]; intros k; simpl; [reflexivity|].
  destruct b; simpl; now rewrite IH.
Qed.

Lemma take_rows_shift (x : face) (arr : list face) (idx : list nat) :
  take_rows (x :: arr) (map S idx) = take_rows arr idx.
Proof.
  induction idx as [|i idx IH]; simpl; [reflexivity|].
  destruct (nth_error arr i); [now rewrite IH | reflexivity].
Qed.

Lemma combine_map_S {A} (idx : list nat) (rs : list A) :
  combine (map S idx) rs = map (fun p => (S (fst p), snd p)) (combine idx rs).
Proof.
  revert rs. induction idx as [|i idx IH]; intros [|r rs]; simpl; try reflexivity.
  now rewrite IH.
Qed.

Lemma set_rows_shift (x : face) (arr : list face) (ps : list (nat * face)) :
  set_rows (x :: arr) (map (fun p => (S (fst p), snd p)) ps)
  = let* arr' := set_rows arr ps in Ok (x :: arr').
Proof.
  revert arr. induction ps as [|[i r] ps IH]; intros arr; simpl; [reflexivity|].
  destruct (set_row arr i r) as [arr'|e]; simpl; [apply IH | reflexivity].
Qed.

(** Gathering the flagged rows, reversing them and writing them back flips
    exactly the flagged rows. *)
Lemma flip_rows (mask : list bool) (arr : list face) :
  List.length mask = List.length arr ->
  exists rows, take_rows arr (nonzero mask) = Ok rows /\
    set_rows arr (combine (nonzero mask) (map rev3 rows))
    = Ok (map2 (fun (b : bool) f => if b then rev3 f else f) mask arr).
Proof.
  revert mask. induction arr as [|x arr IH]; intros [|b mask] Hlen;
    simpl in Hlen; try discriminate.
  - exists []. split; reflexivity.
  - injection Hlen as Hlen. destruct (IH mask Hlen) as [rows [Ht Hs]].
    unfold nonzero in *. simpl. rewrite nonzero_from_S.
    destruct b.
    + exists (x :: rows). simpl. rewrite take_rows_shift, Ht. split; [reflexivity|].
      simpl. rewrite combine_map_S, set_rows_shift, Hs. reflexivity.
    + exists rows. rewrite take_rows_shift, Ht. split; [reflexivity|].
      rewrite combine_map_S, set_rows_shift, Hs. reflexivity.
Qed.

Lemma list_replace_last {A} (l : list A) (x y : A) :
  list_replace (l ++ [x]) (List.length l) y = l ++ [y].
Proof. induction l as [|z l IH]; simpl; [reflexivity | now rewrite IH]. Qed.

Lemma nth_error_last {A} (l : list A) (x : A) :
  nth_error (l ++ [x]) (List.length l) = Some x.
Proof. rewrite nth_error_app2, Nat.sub_diag; [reflexivity | lia]. Qed.

(** ** [correct_mesh_orientation] *)

Section OrientationFacts.

Context {field : Type}.
Variable np_gradient : ndarray -> vec3 -> result (field * field * field).
Variable map_coordinates : field -> vec3 -> R.

Lemma dotproducts_of_spec (gx gy gz : field) (ts : list tri) :
  dotproducts_of map_coordinates gx gy gz ts = map (face_dot map_coordinates gx gy gz) ts.
Proof.
  unfold dotproducts_of.
  repeat first [rewrite map_map | rewrite map2_map].
  apply map_ext. intros [[v0 v1] v2]. reflexivity.
Qed.

Lemma flags_spec (m : mode) (vs : list vec3) (gx gy gz : field) (fs : list face) (ts : list tri) :
  Forall2 (fun f t => resolve vs f = Some t) fs ts ->
  map (flag_of m) (map (face_dot map_coordinates gx gy gz) ts)
  = map (face_flag map_coordinates m vs gx gy gz) fs.
Proof.
  induction 1 as [|f t fs ts Hft _ IH]; cbn [map]; [reflexivity|].
  rewrite IH. unfold face_flag at 2. now rewrite Hft.
Qed.

(** Behaviour of a call whose gradient and fancy indexing succeed and whose
    [gradient_direction] is accepted. *)
Lemma cmo_ok (volume : ndarray) (h : heap) (va fa : nat) (spacing : vec3)
    (gd : string) (m : mode) (gx gy gz : field) (vs : list vec3) (fs : list face) :
  parse_direction gd = Some m ->
  np_gradient volume spacing = Ok (gx, gy, gz) ->
  nth_error (vheap h) va = Some vs ->
  nth_error (fheap h) fa = Some fs ->
  (forall f, In f fs -> resolve vs f <> None) ->
  correct_mesh_orientation np_gradient map_coordinates volume h va fa spacing gd
  = Ok (mkHeap (vheap h) (fheap h ++ [oriented_faces map_coordinates m vs gx gy gz fs]),
        List.length (fheap h)).
Proof.
  intros Hp Hg Hv Hf Hres.
  destruct (gather_ok vs fs Hres) as [ts [Hgt HF]].
  unfold correct_mesh_orientation, load_verts, load_faces.
  rewrite Hg, Hv, Hf. cbn [bind]. rewrite Hgt. cbn [bind].
  rewrite dotproducts_of_spec.
  destruct (flip_rows (map (face_flag map_coordinates m vs gx gy gz) fs) fs)
    as [rows [Ht Hs]]; [now rewrite length_map|].
  unfold parse_direction in Hp.
  destruct (contains "descent" gd); [|destruct (contains "ascent" gd)];
    try discriminate; injection Hp as <-; cbn [bind].
  - change (fun d => Rltb d 0) with (flag_of Descent).
    rewrite (flags_spec Descent vs gx gy gz fs ts HF).
    unfold alloc_faces. cbn [fheap]. rewrite nth_error_last. cbn [bind].
    rewrite Ht. cbn [bind]. rewrite Hs. cbn [bind].
    unfold store_faces. cbn [fheap vheap]. rewrite list_replace_last, map2_map_l.
    reflexivity.
  - change (fun d => Rltb 0 d) with (flag_of Ascent).
    rewrite (flags_spec Ascent vs gx gy gz fs ts HF).
    unfold alloc_faces. cbn [fheap]. rewrite nth_error_last. cbn [bind].
    rewrite Ht. cbn [bind]. rewrite Hs. cbn [bind].
    unfold store_faces. cbn [fheap vheap]. rewrite list_replace_last, map2_map_l.
    reflexivity.
Qed.

End OrientationFacts.

(** ** Reversing a face *)

Lemma resolve_rev3 (vs : list vec3) (f : face) :
  resolve vs (rev3 f) = option_map rev_tri (resolve vs f).
Proof.
  destruct f as [[i0 i1] i2]. simpl.
  destruct (py_index vs i0), (py_index vs i1), (py_index vs i2); reflexivity.
Qed.

Lemma rev3_involutive (f : face) : rev3 (rev3 f) = f.
Proof. destruct f as [[i0 i1] i2]. reflexivity. Qed.

Lemma centroid_rev (v0 v1 v2 : vec3) : centroid (v2, v1, v0) = centroid (v0, v1, v2).
Proof.
  destruct v0 as [[x0 y0] z0], v1 as [[x1 y1] z1], v2 as [[x2 y2] z2]. simpl.
  f_equal; [f_equal|]; unfold Rdiv; ring.
Qed.

Lemma cross_rev (v0 v1 v2 : vec3) :
  cross (vsub v2 v1) (vsub v2 v0) = vneg (cross (vsub v0 v1) (vsub v0 v2)).
Proof.
  destruct v0 as [[x0 y0] z0], v1 as [[x1 y1] z1], v2 as [[x2 y2] z2]. simpl.
  f_equal; [f_equal|]; ring.
Qed.

Lemma normalize_vneg (v : vec3) : normalize (vneg v) = vneg (normalize v).
Proof.
  destruct v as [[x y] z]. unfold normalize, vneg, vdiv, sumsq.
  replace (- x * - x + - y * - y + - z * - z) with (x * x + y * y + z * z) by ring.
  f_equal; [f_equal|]; unfold Rdiv; ring.
Qed.

Lemma dot_vneg (u v : vec3) : dot u (vneg v) = - dot u v.
Proof. destruct u as [[x1 y1] z1], v as [[x2 y2] z2]. simpl. ring. Qed.

Lemma flag_of_true (m : mode) (d : R) : flag_of m d = true <-> misoriented m d.
Proof.
  destruct m; simpl; unfold Rltb; destruct (Rlt_dec _ _); split; congruence || tauto.
Qed.

Lemma flag_of_false (m : mode) (d : R) : flag_of m d = false <-> ~ misoriented m d.
Proof.
  destruct m; simpl; unfold Rltb; destruct (Rlt_dec _ _); split; congruence || tauto.
Qed.

Lemma parse_mode_string (m : mode) : parse_direction (mode_string m) = Some m.
Proof. destruct m; reflexivity. Qed.

Section OrientationRev.

Context {field : Type}.
Variable map_coordinates : field -> vec3 -> R.

Lemma face_dot_rev (gx gy gz : field) (t : tri) :
  face_dot map_coordinates gx gy gz (rev_tri t) = - face_dot map_coordinates gx gy gz t.
Proof.
  destruct t as [[v0 v1] v2]. unfold face_dot. cbn beta iota zeta delta [rev_tri].
  rewrite centroid_rev, cross_rev, normalize_vneg, dot_vneg. reflexivity.
Qed.

End OrientationRev.

Lemma gather_err_index (vs : list vec3) (fs : list face) (e : exn) :
  gather vs fs = Err e -> e = IndexError "index out of bounds"%string.
Proof.
  induction fs as [|f fs IH]; intros Hg; simpl in Hg; [discriminate|].
  destruct (resolve vs f); [|congruence].
  destruct (gather vs fs); simpl in Hg; [discriminate|]. injection Hg as <-. now apply IH.
Qed.

Section OrientationClaims.

Context {field : Type}.
Variable np_gradient : ndarray -> vec3 -> result (field * field * field).
Variable map_coordinates : field -> vec3 -> R.

Lemma gather_resolves (vs : list vec3) (fs : list face) (ts : list tri) :
  gather vs fs = Ok ts -> forall f, In f fs -> resolve vs f <> None.
Proof.
  intros Hg. apply gather_inv in Hg.
  induction Hg as [|f t fs ts Hft _ IH]; intros g Hin; [destruct Hin|].
  destruct Hin as [<-|Hin]; [congruence | now apply IH].
Qed.

(** A call that returns went through a successful gradient, successful
    fancy indexing and an accepted [gradient_direction]. *)
Lemma cmo_inv (volume : ndarray) (h : heap) (va fa : nat) (spacing : vec3)
    (gd : string) (res : heap * nat) :
  correct_mesh_orientation np_gradient map_coordinates volume h va fa spacing gd = Ok res ->
  exists m gx gy gz vs fs,
    parse_direction gd = Some m /\ np_gradient volume spacing = Ok (gx, gy, gz) /\
    nth_error (vheap h) va = Some vs /\ nth_error (fheap h) fa = Some fs /\
    (forall f, In f fs -> resolve vs f <> None).
Proof.
  unfold correct_mesh_orientation, load_verts, load_faces. intros H.
  destruct (np_gradient volume spacing) as [[[gx gy] gz]|e] eqn:Hg;
    cbn [bind] in H; [|discriminate].
  destruct (nth_error (vheap h) va) as [vs|] eqn:Hv; cbn [bind] in H; [|discriminate].
  destruct (nth_error (fheap h) fa) as [fs|] eqn:Hf; cbn [bind] in H; [|discriminate].
  destruct (gather vs fs) as [ts|e] eqn:Hgt; cbn [bind] in H; [|discriminate].
  destruct (parse_direction gd) as [m|] eqn:Hp.
  - exists m, gx, gy, gz, vs, fs. repeat split; auto.
    exact (gather_resolves vs fs ts Hgt).
  - exfalso. unfold parse_direction in Hp.
    destruct (contains "descent" gd) eqn:Hd; [discriminate|].
    destruct (contains "ascent" gd) eqn:Ha; [discriminate|].
    discriminate.
Qed.

(** The call depends on [gradient_direction] only through the mode the
    if/elif reads from it, as long as it reads one. *)
Lemma cmo_direction_ext (volume : ndarray) (h : heap) (va fa : nat) (spacing : vec3)
    (gd1 gd2 : string) :
  parse_direction gd1 = parse_direction gd2 -> parse_direction gd1 <> None ->
  correct_mesh_orientation np_gradient map_coordinates volume h va fa spacing gd1
  = correct_mesh_orientation np_gradient map_coordinates volume h va fa spacing gd2.
Proof.
  intros Hp Hn. unfold correct_mesh_orientation.
  destruct (np_gradient volume spacing) as [[[gx gy] gz]|e]; cbn [bind]; [|reflexivity].
  destruct (load_verts h va) as [vs|e]; cbn [bind]; [|reflexivity].
  destruct (load_faces h fa) as [fs|e]; cbn [bind]; [|reflexivity].
  destruct (gather vs fs) as [ts|e]; cbn [bind]; [|reflexivity].
  unfold parse_direction in Hp, Hn.
  destruct (contains "descent" gd1), (contains "descent" gd2),
    (contains "ascent" gd1), (contains "ascent" gd2);
    try reflexivity; try discriminate; exfalso; now apply Hn.
Qed.

(** C1: in a valid mode, [correct_mesh_orientation] reverses a face exactly
    when it is mis-oriented (descent: the dot product of the normalized
    gradient interpolated at its centroid with its normalized normal
    [(v0 - v1) x (v0 - v2)] is negative; ascent: it is positive) and returns
    every other face unchanged. *)
Theorem cmo_flips_exactly_misoriented (m : mode) (volume : ndarray) (h : heap) (va fa : nat)
    (spacing : vec3) (gx gy gz : field) (vs : list vec3) (fs : list face) :
  np_gradient volume spacing = Ok (gx, gy, gz) ->
  nth_error (vheap h) va = Some vs ->
  nth_error (fheap h) fa = Some fs ->
  (forall f, In f fs -> resolve vs f <> None) ->
  exists h' r out,
    correct_mesh_orientation np_gradient map_coordinates volume h va fa spacing (mode_string m)
    = Ok (h', r) /\
    nth_error (fheap h') r = Some out /\ List.length out = List.length fs /\
    forall j f t, nth_error fs j = Some f -> resolve vs f = Some t ->
      (misoriented m (face_dot map_coordinates gx gy gz t) -> nth_error out j = Some (rev3 f)) /\
      (~ misoriented m (face_dot map_coordinates gx gy gz t) -> nth_error out j = Some f).
Proof.
  intros Hg Hv Hf Hres.
  exists (mkHeap (vheap h) (fheap h ++ [oriented_faces map_coordinates m vs gx gy gz fs])),
    (List.length (fheap h)), (oriented_faces map_coordinates m vs gx gy gz fs).
  split; [exact (cmo_ok np_gradient map_coordinates volume h va fa spacing _ m gx gy gz vs fs
                   (parse_mode_string m) Hg Hv Hf Hres)|].
  split; [apply nth_error_last|].
  split; [apply length_map|].
  intros j f t Hj Ht. unfold oriented_faces. rewrite nth_error_map, Hj. cbn [option_map].
  unfold face_flag. rewrite Ht. split; intros Hm.
  - apply flag_of_true in Hm. now rewrite Hm.
  - apply flag_of_false in Hm. now rewrite Hm.
Qed.

(** C2 (amended): a [gradient_direction] containing neither "descent" nor
    "ascent" as a substring is rejected with an error, and one containing
    either is accepted.  The test runs after the gradient and the fancy
    indexing: an exception of [np.gradient] is reported first, then the
    IndexError of [verts[faces]], and only when both succeed does an unknown
    direction raise the [gradient_direction] ValueError. *)
Theorem cmo_rejects_unknown_direction (volume : ndarray) (h : heap) (va fa : nat)
    (spacing : vec3) :
  (forall gd, parse_direction gd = None ->
   (exists e, correct_mesh_orientation np_gradient map_coordinates volume h va fa spacing gd
              = Err e) /\
   (forall e, np_gradient volume spacing = Err e ->
    correct_mesh_orientation np_gradient map_coordinates volume h va fa spacing gd = Err e) /\
   (forall gx gy gz vs fs,
      np_gradient volume spacing = Ok (gx, gy, gz) ->
      nth_error (vheap h) va = Some vs ->
      nth_error (fheap h) fa = Some fs ->
      (exists f, In f fs /\ resolve vs f = None) ->
      correct_mesh_orientation np_gradient map_coordinates volume h va fa spacing gd
      = Err (IndexError "index out of bounds"%string)) /\
   (forall gx gy gz vs fs,
      np_gradient volume spacing = Ok (gx, gy, gz) ->
      nth_error (vheap h) va = Some vs ->
      nth_error (fheap h) fa = Some fs ->
      (forall f, In f fs -> resolve vs f <> None) ->
      correct_mesh_orientation np_gradient map_coordinates volume h va fa spacing gd
      = Err (mode_error gd))) /\
  (forall gd, contains "descent" gd = true \/ contains "ascent" gd = true ->
   forall gx gy gz vs fs,
     np_gradient volume spacing = Ok (gx, gy, gz) ->
     nth_error (vheap h) va = Some vs ->
     nth_error (fheap h) fa = Some fs ->
     (forall f, In f fs -> resolve vs f <> None) ->
     exists res,
       correct_mesh_orientation np_gradient map_coordinates volume h va fa spacing gd = Ok res).
Proof.
  split.
  - intros gd Hp. split; [|split; [|split]].
    + destruct (correct_mesh_orientation np_gradient map_coordinates volume h va fa spacing gd)
        as [res|e] eqn:E; [|now exists e].
      exfalso.
      destruct (cmo_inv volume h va fa spacing gd res E) as (m & _ & _ & _ & _ & _ & Hp' & _).
      congruence.
    + intros e Hg. unfold correct_mesh_orientation. now rewrite Hg.
    + intros gx gy gz vs fs Hg Hv Hf [f [Hin Hr]].
      unfold correct_mesh_orientation, load_verts, load_faces.
      rewrite Hg, Hv, Hf. cbn [bind].
      destruct (gather vs fs) as [ts|e] eqn:Hgt.
      * exfalso. exact (gather_resolves vs fs ts Hgt f Hin Hr).
      * cbn [bind]. now rewrite (gather_err_index vs fs e Hgt).
    + intros gx gy gz vs fs Hg Hv Hf Hres.
      destruct (gather_ok vs fs Hres) as [ts [Hgt _]].
      unfold correct_mesh_orientation, load_verts, load_faces.
      rewrite Hg, Hv, Hf. cbn [bind]. rewrite Hgt. cbn [bind].
      unfold parse_direction in Hp.
      destruct (contains "descent" gd); [discriminate|].
      destruct (contains "ascent" gd); [discriminate|].
      reflexivity.
  - intros gd Hc gx gy gz vs fs Hg Hv Hf Hres.
    destruct (parse_direction gd) as [m|] eqn:Hp.
    + eexists. exact (cmo_ok np_gradient map_coordinates volume h va fa spacing gd m
                        gx gy gz vs fs Hp Hg Hv Hf Hres).
    + exfalso. unfold parse_direction in Hp.
      destruct Hc as [Hc|Hc]; rewrite Hc in Hp;
        [discriminate | destruct (contains "descent" gd); discriminate].
Qed.

(** C3: on a mesh whose faces are all correctly oriented for a mode,
    correcting with the opposite mode and then with the original mode gives
    back the original faces. *)
Theorem cmo_round_trip (m : mode) (volume : ndarray) (h : heap) (va fa : nat)
    (spacing : vec3) (gx gy gz : field) (vs : list vec3) (fs : list face) :
  np_gradient volume spacing = Ok (gx, gy, gz) ->
  nth_error (vheap h) va = Some vs ->
  nth_error (fheap h) fa = Some fs ->
  (forall f, In f fs -> resolve vs f <> None) ->
  (forall f t, In f fs -> resolve vs f = Some t ->
     ~ misoriented m (face_dot map_coordinates gx gy gz t)) ->
  exists h1 r1 h2 r2,
    correct_mesh_orientation np_gradient map_coordinates volume h va fa spacing
      (mode_string (opposite m)) = Ok (h1, r1) /\
    correct_mesh_orientation np_gradient map_coordinates volume h1 va r1 spacing
      (mode_string m) = Ok (h2, r2) /\
    nth_error (fheap h2) r2 = Some fs.
Proof.
  intros Hg Hv Hf Hres Hok.
  set (fs1 := oriented_faces map_coordinates (opposite m) vs gx gy gz fs).
  set (h1 := mkHeap (vheap h) (fheap h ++ [fs1])).
  assert (Hres1 : forall f, In f fs1 -> resolve vs f <> None).
  { intros f' Hin. unfold fs1, oriented_faces in Hin.
    apply in_map_iff in Hin as [f [<- Hin]].
    destruct (face_flag map_coordinates (opposite m) vs gx gy gz f); [|exact (Hres f Hin)].
    rewrite resolve_rev3. destruct (resolve vs f) eqn:E; [discriminate|].
    exfalso. exact (Hres f Hin E). }
  exists h1, (List.length (fheap h)),
    (mkHeap (vheap h1) (fheap h1 ++ [oriented_faces map_coordinates m vs gx gy gz fs1])),
    (List.length (fheap h1)).
  split; [exact (cmo_ok np_gradient map_coordinates volume h va fa spacing _ (opposite m)
                   gx gy gz vs fs (parse_mode_string _) Hg Hv Hf Hres)|].
  split; [exact (cmo_ok np_gradient map_coordinates volume h1 va _ spacing _ m
                   gx gy gz vs fs1 (parse_mode_string _) Hg Hv (nth_error_last _ _) Hres1)|].
  cbn [fheap]. rewrite nth_error_last. f_equal.
  unfold fs1, oriented_faces. rewrite map_map.
  transitivity (map (fun f => f) fs); [|apply map_id].
  apply map_ext_in. intros f Hin. cbv beta.
  destruct (resolve vs f) as [t|] eqn:Ht; [|exfalso; exact (Hres f Hin Ht)].
  pose proof (Hok f t Hin Ht) as Hn.
  unfold face_flag at 2. rewrite Ht.
  destruct (flag_of (opposite m) (face_dot map_coordinates gx gy gz t)) eqn:Hflip.
  - unfold face_flag. rewrite resolve_rev3, Ht. cbn [option_map].
    rewrite face_dot_rev.
    assert (Hback : flag_of m (- face_dot map_coordinates gx gy gz t) = true).
    { apply flag_of_true. apply flag_of_true in Hflip.
      destruct m; simpl in *; lra. }
    rewrite Hback, Hflip. apply rev3_involutive.
  - unfold face_flag. rewrite Ht.
    apply flag_of_false in Hn. rewrite Hflip. now rewrite Hn.
Qed.

(** C6: a call that returns allocates a fresh face array of the same length
    whose rows are the input rows, each unchanged or reversed; the vertex
    arrays and the face arrays that existed before the call are untouched. *)
Theorem cmo_fresh_faces (volume : ndarray) (h : heap) (va fa : nat) (spacing : vec3)
    (gd : string) (h' : heap) (r : nat) :
  correct_mesh_orientation np_gradient map_coordinates volume h va fa spacing gd = Ok (h', r) ->
  exists fs out,
    nth_error (fheap h) fa = Some fs /\ r = List.length (fheap h) /\
    vheap h' = vheap h /\ fheap h' = fheap h ++ [out] /\
    List.length out = List.length fs /\
    Forall2 (fun f f' => f' = f \/ f' = rev3 f) fs out.
Proof.
  intros H.
  destruct (cmo_inv volume h va fa spacing gd _ H)
    as (m & gx & gy & gz & vs & fs & Hp & Hg & Hv & Hf & Hres).
  rewrite (cmo_ok np_gradient map_coordinates volume h va fa spacing gd m gx gy gz vs fs
             Hp Hg Hv Hf Hres) in H.
  injection H as <- <-.
  exists fs, (oriented_faces map_coordinates m vs gx gy gz fs).
  split; [exact Hf|]. split; [reflexivity|]. split; [reflexivity|]. split; [reflexivity|].
  split; [apply length_map|].
  unfold oriented_faces. clear Hf Hres.
  induction fs as [|f fs IH]; cbn [map]; constructor; [|exact IH].
  destruct (face_flag map_coordinates m vs gx gy gz f); [right|left]; reflexivity.
Qed.

(** C10: [gradient_direction] is read by substring containment: a string
    containing "descent" behaves as "descent", and one containing "ascent"
    but not "descent" behaves as "ascent". *)
Theorem cmo_direction_substring (volume : ndarray) (h : heap) (va fa : nat) (spacing : vec3)
    (gd : string) :
  (contains "descent" gd = true ->
   correct_mesh_orientation np_gradient map_coordinates volume h va fa spacing gd
   = correct_mesh_orientation np_gradient map_coordinates volume h va fa spacing "descent") /\
  (contains "descent" gd = false -> contains "ascent" gd = true ->
   correct_mesh_orientation np_gradient map_coordinates volume h va fa spacing gd
   = correct_mesh_orientation np_gradient map_coordinates volume h va fa spacing "ascent").
Proof.
  split.
  - intros Hd. apply cmo_direction_ext; unfold parse_direction; rewrite Hd;
      [reflexivity | discriminate].
  - intros Hd Ha. apply cmo_direction_ext; unfold parse_direction; rewrite Hd, Ha;
      [reflexivity | discriminate].
Qed.

End OrientationClaims.

(** ** [mesh_surface_area] *)

Lemma np_sum_half {A} (g : A -> R) (l : list A) :
  np_sum (map g l) / 2 = np_sum (map (fun x => g x / 2) l).
Proof.
  induction l as [|x l IH]; simpl; [unfold Rdiv; ring|].
  rewrite <- IH. unfold Rdiv. ring.
Qed.

Lemma np_sum_nonneg (l : list R) : Forall (fun x => 0 <= x) l -> 0 <= np_sum l.
Proof. induction 1; simpl; lra. Qed.

(** C4: [mesh_surface_area] is the sum over the faces [(v0, v1, v2)] of half
    the norm of [(v0 - v1) x (v0 - v2)]; a degenerate face contributes 0. *)
Theorem msa_sum_of_halves (verts : list vec3) (faces : list face) :
  (forall f, In f faces -> resolve verts f <> None) ->
  mesh_surface_area verts faces = Ok (np_sum (map (face_area verts) faces)) /\
  (forall f v0 v1 v2, resolve verts f = Some (v0, v1, v2) ->
     cross (vsub v0 v1) (vsub v0 v2) = (0, 0, 0) -> face_area verts f = 0).
Proof.
  intros Hres. split.
  - destruct (gather_ok verts faces Hres) as [ts [Hg HF]].
    unfold mesh_surface_area. rewrite Hg. cbn [bind]. f_equal.
    rewrite map2_map, map_map, np_sum_half.
    clear Hg Hres. induction HF as [|f t fs ts Hft _ IH]; cbn [map np_sum fold_right];
      [reflexivity|].
    unfold np_sum in IH. rewrite IH. f_equal.
    unfold face_area. rewrite Hft. destruct t as [[v0 v1] v2]. reflexivity.
  - intros f v0 v1 v2 Hf Hc. unfold face_area. rewrite Hf, Hc. simpl.
    replace (0 * 0 + 0 * 0 + 0 * 0) with 0 by ring. rewrite sqrt_0. unfold Rdiv. ring.
Qed.

(** C5: [mesh_surface_area] never returns a negative number, and returns
    exactly 0 on a mesh without faces. *)
Theorem msa_nonneg_and_empty :
  (forall verts faces a, mesh_surface_area verts faces = Ok a -> 0 <= a) /\
  (forall verts, mesh_surface_area verts [] = Ok 0).
Proof.
  split.
  - intros verts faces a H. unfold mesh_surface_area in H.
    destruct (gather verts faces) as [ts|e]; cbn [bind] in H; [|discriminate].
    injection H as <-. unfold Rdiv. apply Rmult_le_pos; [|left; apply Rinv_0_lt_compat; lra].
    apply np_sum_nonneg. apply Forall_forall. intros x Hx.
    apply in_map_iff in Hx as [c [<- _]]. apply sqrt_pos.
  - intros verts. unfold mesh_surface_area. simpl. f_equal. unfold Rdiv. ring.
Qed.

(** ** [marching_cubes] *)

Lemma fold_min_le (l : list R) (x : R) : fold_left Rmin l x <= x.
Proof.
  revert x. induction l as [|y l IH]; intros x; simpl; [lra|].
  pose proof (IH (Rmin x y)). pose proof (Rmin_l x y). lra.
Qed.

Lemma fold_max_ge (l : list R) (x : R) : x <= fold_left Rmax l x.
Proof.
  revert x. induction l as [|y l IH]; intros x; simpl; [lra|].
  pose proof (IH (Rmax x y)). pose proof (Rmax_l x y). lra.
Qed.

Lemma fold_max_ge_in (l : list R) (x y : R) : In y l -> y <= fold_left Rmax l x.
Proof.
  revert x. induction l as [|z l IH]; intros x Hin; simpl; [destruct Hin|].
  destruct Hin as [->|Hin]; [|now apply IH].
  pose proof (fold_max_ge l (Rmax x y)). pose proof (Rmax_r x y). lra.
Qed.

Lemma fold_min_le_in (l : list R) (x y : R) : In y l -> fold_left Rmin l x <= y.
Proof.
  revert x. induction l as [|z l IH]; intros x Hin; simpl; [destruct Hin|].
  destruct Hin as [->|Hin]; [|now apply IH].
  pose proof (fold_min_le l (Rmin x y)). pose proof (Rmin_r x y). lra.
Qed.

Lemma fold_max_le (l : list R) (x b : R) :
  (forall y, In y l -> y <= b) -> x <= b -> fold_left Rmax l x <= b.
Proof.
  revert x. induction l as [|z l IH]; intros x Hl Hx; simpl; [exact Hx|].
  apply IH; [intros y Hy; apply Hl; now right|].
  apply Rmax_lub; [exact Hx | apply Hl; now left].
Qed.

Lemma np_min_le_max (l : list R) (mn mx : R) :
  np_min l = Ok mn -> np_max l = Ok mx -> mn <= mx.
Proof.
  destruct l as [|x l]; simpl; intros H1 H2; [discriminate|].
  injection H1 as <-. injection H2 as <-.
  pose proof (fold_min_le l x). pose proof (fold_max_ge l x). lra.
Qed.

Section MarchingCubesFacts.

Variable iterate_and_store_3d : ndarray -> R -> vec3 -> list tri.

(** A 3-d volume and a level within its range reach the traversal. *)
Lemma mc_accepts (volume : ndarray) (level : R) (spacing : vec3) (mn mx : R) :
  ndim volume = 3%nat ->
  np_min (data volume) = Ok mn -> np_max (data volume) = Ok mx ->
  mn <= level <= mx ->
  marching_cubes iterate_and_store_3d volume level spacing
  = Ok (unpack_unique_verts (iterate_and_store_3d volume level spacing)).
Proof.
  intros Hd Hmn Hmx Hl. unfold marching_cubes. rewrite Hd. cbn [Nat.eqb negb].
  rewrite Hmn. cbn [bind]. unfold Rltb.
  destruct (Rlt_dec level mn); [lra|].
  rewrite Hmx. cbn [bind].
  destruct (Rlt_dec mx level); [lra|].
  destruct (unpack_unique_verts (iterate_and_store_3d volume level spacing)); reflexivity.
Qed.

(** C7: a level strictly below the minimum or strictly above the maximum of
    the volume is rejected whatever the traversal would do; a level equal to
    the minimum or to the maximum reaches the traversal. *)
Theorem mc_level_bounds (volume : ndarray) (level : R) (spacing : vec3) (mn mx : R) :
  ndim volume = 3%nat ->
  np_min (data volume) = Ok mn -> np_max (data volume) = Ok mx ->
  ((level < mn \/ mx < level) ->
   marching_cubes iterate_and_store_3d volume level spacing = Err level_error) /\
  ((level = mn \/ level = mx) ->
   marching_cubes iterate_and_store_3d volume level spacing
   = Ok (unpack_unique_verts (iterate_and_store_3d volume level spacing))).
Proof.
  intros Hd Hmn Hmx. pose proof (np_min_le_max _ _ _ Hmn Hmx) as Hle. split.
  - intros Hout. unfold marching_cubes. rewrite Hd. cbn [Nat.eqb negb].
    rewrite Hmn. cbn [bind]. unfold Rltb.
    destruct (Rlt_dec level mn); [reflexivity|].
    rewrite Hmx. cbn [bind].
    destruct (Rlt_dec mx level); [reflexivity | lra].
  - intros Hin. apply (mc_accepts volume level spacing mn mx Hd Hmn Hmx). lra.
Qed.

(** C8: a volume without exactly 3 axes is rejected with the dimension
    ValueError, whatever the traversal would do. *)
Theorem mc_requires_3d (volume : ndarray) (level : R) (spacing : vec3) :
  ndim volume <> 3%nat ->
  marching_cubes iterate_and_store_3d volume level spacing = Err dimension_error.
Proof.
  intros Hd. unfold marching_cubes.
  destruct (Nat.eqb (ndim volume) 3) eqn:E; [apply Nat.eqb_eq in E; contradiction|].
  reflexivity.
Qed.

End MarchingCubesFacts.

(** ** Vertex welding *)

Lemma find_vert_some (v : vec3) (l : list vec3) (i : nat) :
  find_vert v l = Some i -> (i < List.length l)%nat.
Proof.
  revert i. induction l as [|w l IH]; intros i H; simpl in H; [discriminate|].
  destruct (vec3_eq_dec v w).
  - injection H as <-. simpl. lia.
  - destruct (find_vert v l) as [k|] eqn:E; [|discriminate].
    injection H as <-. specialize (IH k eq_refl). simpl. lia.
Qed.

Lemma find_vert_none (v : vec3) (l : list vec3) : find_vert v l = None -> ~ In v l.
Proof.
  induction l as [|w l IH]; intros H Hin; simpl in H; [destruct Hin|].
  destruct (vec3_eq_dec v w) as [Heq|Hne]; [discriminate|].
  destruct (find_vert v l); [discriminate|].
  destruct Hin as [Hw|Hin]; [congruence | exact (IH eq_refl Hin)].
Qed.

Lemma weld_vertex_spec (vs : list vec3) (v : vec3) :
  NoDup vs ->
  NoDup (fst (weld_vertex vs v)) /\
  (0 <= snd (weld_vertex vs v) < Z.of_nat (List.length (fst (weld_vertex vs v))))%Z /\
  (List.length vs <= List.length (fst (weld_vertex vs v)))%nat.
Proof.
  intros Hnd. unfold weld_vertex.
  destruct (find_vert v vs) as [i|] eqn:E; simpl.
  - pose proof (find_vert_some v vs i E). repeat split; auto; lia.
  - rewrite length_app. simpl. repeat split; try lia.
    apply Permutation_NoDup with (v :: vs);
      [apply Permutation_cons_append|].
    constructor; [exact (find_vert_none v vs E) | exact Hnd].
Qed.

Lemma face_in_bounds_mono (n n' : nat) (f : face) :
  (n <= n')%nat -> face_in_bounds n f -> face_in_bounds n' f.
Proof. destruct f as [[i0 i1] i2]. simpl. lia. Qed.

Lemma weld_triangle_inv (st : list vec3 * list face) (t : tri) :
  weld_inv st -> weld_inv (weld_triangle st t).
Proof.
  destruct st as [vs fs], t as [[v0 v1] v2]. intros [Hnd Hb]. simpl in Hnd, Hb.
  unfold weld_triangle.
  pose proof (weld_vertex_spec vs v0 Hnd) as (Hnd0 & Hi0 & Hl0).
  destruct (weld_vertex vs v0) as [vs0 i0]. simpl in *.
  pose proof (weld_vertex_spec vs0 v1 Hnd0) as (Hnd1 & Hi1 & Hl1).
  destruct (weld_vertex vs0 v1) as [vs1 i1]. simpl in *.
  pose proof (weld_vertex_spec vs1 v2 Hnd1) as (Hnd2 & Hi2 & Hl2).
  destruct (weld_vertex vs1 v2) as [vs2 i2]. simpl in *.
  split; [exact Hnd2|]. simpl. intros f Hin.
  apply in_app_or in Hin as [Hin|[<-|[]]].
  - apply (face_in_bounds_mono (List.length vs)); [lia | exact (Hb f Hin)].
  - simpl. lia.
Qed.

Lemma unpack_unique_verts_inv (raw : list tri) : weld_inv (unpack_unique_verts raw).
Proof.
  unfold unpack_unique_verts.
  assert (H0 : weld_inv ([], [])) by (split; [constructor | intros f []]).
  revert H0. generalize (@nil vec3, @nil face). clear.
  induction raw as [|t raw IH]; intros st Hst; simpl; [exact Hst|].
  apply IH. now apply weld_triangle_inv.
Qed.

(** C9: the mesh returned by [marching_cubes] only uses valid vertex
    positions in its faces, and its vertex list has no two equal entries. *)
Theorem mc_mesh_invariant (iterate_and_store_3d : ndarray -> R -> vec3 -> list tri)
    (volume : ndarray) (level : R) (spacing : vec3) (verts : list vec3) (faces : list face) :
  marching_cubes iterate_and_store_3d volume level spacing = Ok (verts, faces) ->
  (forall f, In f faces -> face_in_bounds (List.length verts) f) /\ NoDup verts.
Proof.
  intros H. unfold marching_cubes in H.
  destruct (negb (Nat.eqb (ndim volume) 3)); [discriminate|].
  destruct (np_min (data volume)) as [mn|e]; cbn [bind] in H; [|discriminate].
  destruct (Rltb level mn); [discriminate|].
  destruct (np_max (data volume)) as [mx|e]; cbn [bind] in H; [|discriminate].
  destruct (Rltb mx level); [discriminate|].
  pose proof (unpack_unique_verts_inv (iterate_and_store_3d volume level spacing)) as [Hnd Hb].
  destruct (unpack_unique_verts (iterate_and_store_3d volume level spacing)) as [vs fs].
  injection H as <- <-. split; [exact Hb | exact Hnd].
Qed.

(** * Examples on concrete inputs *)

Lemma ex_resolvable : forall f, In f [ex_face] -> resolve ex_verts f <> None.
Proof. intros f [<-|[]]. discriminate. Qed.

Lemma ex_resolve : resolve ex_verts ex_face = Some ex_triangle.
Proof. reflexivity. Qed.

(** The normalized gradient (1, 0, 0) against the normal (1, 0, 0) of
    [ex_triangle]. *)
Lemma ex_face_dot : face_dot const_x_gradient 0%nat 1%nat 2%nat ex_triangle = 1.
Proof.
  unfold face_dot, ex_triangle, centroid, const_x_gradient, normalize, vdiv, sumsq,
    cross, vsub, vadd, dot. cbn [Nat.eqb].
  repeat match goal with
         | |- context [sqrt ?x] =>
             let e := fresh in assert (e : x = 1) by ring; rewrite e; clear e
         end.
  rewrite sqrt_1. field.
Qed.

(** C1 on [ex_triangle] in ascent mode: its dot product is 1, so it is
    reversed. *)
Lemma cmo_flips_exactly_misoriented_witness :
  exists h' r out,
    correct_mesh_orientation np_gradient_model const_x_gradient cube_volume ex_heap 0%nat 0%nat
      (1, 1, 1) (mode_string Ascent) = Ok (h', r) /\
    nth_error (fheap h') r = Some out /\ nth_error out 0%nat = Some (rev3 ex_face).
Proof.
  destruct (cmo_flips_exactly_misoriented np_gradient_model const_x_gradient Ascent
              cube_volume ex_heap 0%nat 0%nat (1, 1, 1) 0%nat 1%nat 2%nat ex_verts [ex_face]
              eq_refl eq_refl eq_refl ex_resolvable)
    as (h' & r & out & H1 & H2 & _ & H4).
  exists h', r, out. split; [exact H1|]. split; [exact H2|].
  apply (H4 0%nat ex_face ex_triangle eq_refl ex_resolve).
  unfold misoriented. rewrite ex_face_dot. lra.
Defined.

(** C2 as stated fails: on a 1x1x1 volume an unknown direction surfaces
    numpy's gradient error, on a face index out of range it surfaces the
    IndexError of [verts[faces]] (both computed before the direction is
    looked at), and "gradient descent" is accepted. *)
Lemma cmo_direction_checked_late :
  correct_mesh_orientation np_gradient_model const_x_gradient point_volume ex_heap 0%nat 0%nat
    (1, 1, 1) "sideways"
  = Err (ValueError "Shape of array too small to calculate a numerical gradient, at least (edge_order + 1) elements are required."%string) /\
  ValueError "Shape of array too small to calculate a numerical gradient, at least (edge_order + 1) elements are required."%string
  <> mode_error "sideways" /\
  correct_mesh_orientation np_gradient_model const_x_gradient cube_volume bad_heap 0%nat 0%nat
    (1, 1, 1) "sideways" = Err (IndexError "index out of bounds") /\
  exists res,
    correct_mesh_orientation np_gradient_model const_x_gradient cube_volume ex_heap 0%nat 0%nat
      (1, 1, 1) "gradient descent" = Ok res.
Proof.
  split; [reflexivity|]. split; [discriminate|]. split; [reflexivity|].
  eexists. exact (cmo_ok np_gradient_model const_x_gradient cube_volume ex_heap 0%nat 0%nat (1, 1, 1)
                    "gradient descent" Descent 0%nat 1%nat 2%nat ex_verts [ex_face]
                    eq_refl eq_refl eq_refl eq_refl ex_resolvable).
Qed.

Lemma cmo_rejects_unknown_direction_witness :
  correct_mesh_orientation np_gradient_model const_x_gradient cube_volume ex_heap 0%nat 0%nat
    (1, 1, 1) "sideways" = Err (mode_error "sideways") /\
  correct_mesh_orientation np_gradient_model const_x_gradient point_volume ex_heap 0%nat 0%nat
    (1, 1, 1) "sideways"
  = Err (ValueError "Shape of array too small to calculate a numerical gradient, at least (edge_order + 1) elements are required."%string) /\
  correct_mesh_orientation np_gradient_model const_x_gradient cube_volume bad_heap 0%nat 0%nat
    (1, 1, 1) "sideways" = Err (IndexError "index out of bounds"%string) /\
  exists res,
    correct_mesh_orientation np_gradient_model const_x_gradient cube_volume ex_heap 0%nat 0%nat
      (1, 1, 1) "gradient descent" = Ok res.
Proof.
  split; [|split; [|split]].
  - apply (proj2 (proj2 (proj2 (proj1 (cmo_rejects_unknown_direction np_gradient_model
             const_x_gradient cube_volume ex_heap 0%nat 0%nat (1, 1, 1)) "sideways"%string eq_refl)))
             0%nat 1%nat 2%nat ex_verts [ex_face]);
      [reflexivity | reflexivity | reflexivity | exact ex_resolvable].
  - apply (proj1 (proj2 (proj1 (cmo_rejects_unknown_direction np_gradient_model
             const_x_gradient point_volume ex_heap 0%nat 0%nat (1, 1, 1)) "sideways"%string eq_refl))).
    reflexivity.
  - apply (proj1 (proj2 (proj2 (proj1 (cmo_rejects_unknown_direction np_gradient_model
             const_x_gradient cube_volume bad_heap 0%nat 0%nat (1, 1, 1)) "sideways"%string eq_refl)))
             0%nat 1%nat 2%nat ex_verts [(0, 1, 5)%Z]);
      [reflexivity | reflexivity | reflexivity |].
    exists (0, 1, 5)%Z. split; [now left | reflexivity].
  - apply (proj2 (cmo_rejects_unknown_direction np_gradient_model const_x_gradient
             cube_volume ex_heap 0%nat 0%nat (1, 1, 1)) "gradient descent"%string (or_introl eq_refl)
             0%nat 1%nat 2%nat ex_verts [ex_face]);
      [reflexivity | reflexivity | reflexivity | exact ex_resolvable].
Defined.

(** C3 on [ex_triangle], correctly oriented for descent (dot product 1). *)
Lemma cmo_round_trip_witness :
  exists h1 r1 h2 r2,
    correct_mesh_orientation np_gradient_model const_x_gradient cube_volume ex_heap 0%nat 0%nat
      (1, 1, 1) (mode_string (opposite Descent)) = Ok (h1, r1) /\
    correct_mesh_orientation np_gradient_model const_x_gradient cube_volume h1 0%nat r1
      (1, 1, 1) (mode_string Descent) = Ok (h2, r2) /\
    nth_error (fheap h2) r2 = Some [ex_face].
Proof.
  apply (cmo_round_trip np_gradient_model const_x_gradient Descent cube_volume ex_heap 0%nat 0%nat
           (1, 1, 1) 0%nat 1%nat 2%nat ex_verts [ex_face] eq_refl eq_refl eq_refl ex_resolvable).
  intros f t [<-|[]] Ht. rewrite ex_resolve in Ht. injection Ht as <-.
  unfold misoriented. rewrite ex_face_dot. lra.
Defined.

(** C6 on the example mesh in descent mode. *)
Lemma cmo_fresh_faces_witness :
  exists h' r,
    correct_mesh_orientation np_gradient_model const_x_gradient cube_volume ex_heap 0%nat 0%nat
      (1, 1, 1) "descent" = Ok (h', r) /\
    exists fs out,
      nth_error (fheap ex_heap) 0%nat = Some fs /\ r = List.length (fheap ex_heap) /\
      vheap h' = vheap ex_heap /\ fheap h' = fheap ex_heap ++ [out] /\
      List.length out = List.length fs /\
      Forall2 (fun f f' => f' = f \/ f' = rev3 f) fs out.
Proof.
  eexists _, _. split.
  - exact (cmo_ok np_gradient_model const_x_gradient cube_volume ex_heap 0%nat 0%nat (1, 1, 1)
             "descent" Descent 0%nat 1%nat 2%nat ex_verts [ex_face]
             eq_refl eq_refl eq_refl eq_refl ex_resolvable).
  - apply (cmo_fresh_faces np_gradient_model const_x_gradient cube_volume ex_heap 0%nat 0%nat
             (1, 1, 1) "descent").
    exact (cmo_ok np_gradient_model const_x_gradient cube_volume ex_heap 0%nat 0%nat (1, 1, 1)
             "descent" Descent 0%nat 1%nat 2%nat ex_verts [ex_face]
             eq_refl eq_refl eq_refl eq_refl ex_resolvable).
Defined.

(** C10: "gradient descent" behaves as "descent", "nonascent" as "ascent". *)
Lemma cmo_direction_substring_witness :
  correct_mesh_orientation np_gradient_model const_x_gradient cube_volume ex_heap 0%nat 0%nat
    (1, 1, 1) "gradient descent"
  = correct_mesh_orientation np_gradient_model const_x_gradient cube_volume ex_heap 0%nat 0%nat
    (1, 1, 1) "descent" /\
  correct_mesh_orientation np_gradient_model const_x_gradient cube_volume ex_heap 0%nat 0%nat
    (1, 1, 1) "nonascent"
  = correct_mesh_orientation np_gradient_model const_x_gradient cube_volume ex_heap 0%nat 0%nat
    (1, 1, 1) "ascent".
Proof.
  split.
  - apply (proj1 (cmo_direction_substring np_gradient_model const_x_gradient
                    cube_volume ex_heap 0%nat 0%nat (1, 1, 1) "gradient descent")).
    reflexivity.
  - apply (proj2 (cmo_direction_substring np_gradient_model const_x_gradient
                    cube_volume ex_heap 0%nat 0%nat (1, 1, 1) "nonascent")); reflexivity.
Defined.

(** C4 on the example mesh. *)
Lemma msa_sum_of_halves_witness :
  mesh_surface_area ex_verts [ex_face] = Ok (np_sum (map (face_area ex_verts) [ex_face])).
Proof. exact (proj1 (msa_sum_of_halves ex_verts [ex_face] ex_resolvable)). Defined.

(** C5 on the example mesh and on an empty one. *)
Lemma msa_nonneg_and_empty_witness :
  (exists a, mesh_surface_area ex_verts [ex_face] = Ok a /\ 0 <= a) /\
  mesh_surface_area ex_verts [] = Ok 0.
Proof.
  split.
  - eexists. split; [reflexivity|].
    apply (proj1 msa_nonneg_and_empty ex_verts [ex_face]). reflexivity.
  - exact (proj2 msa_nonneg_and_empty ex_verts).
Defined.

(** C7 on [cube_volume] (minimum 0, maximum 1): level 2 is rejected, level
    equal to the maximum reaches the traversal. *)
Lemma mc_level_bounds_witness :
  marching_cubes ex_iterate cube_volume 2 (1, 1, 1) = Err level_error /\
  marching_cubes ex_iterate cube_volume (fold_left Rmax [0; 0; 0; 0; 0; 0; 0] 1) (1, 1, 1)
  = Ok (unpack_unique_verts [ex_triangle]).
Proof.
  assert (Hmx : fold_left Rmax [0; 0; 0; 0; 0; 0; 0] 1 <= 1).
  { apply fold_max_le; [intros y Hy; simpl in Hy; intuition lra | lra]. }
  split.
  - apply (proj1 (mc_level_bounds ex_iterate cube_volume 2 (1, 1, 1)
                    (fold_left Rmin [0; 0; 0; 0; 0; 0; 0] 1)
                    (fold_left Rmax [0; 0; 0; 0; 0; 0; 0] 1) eq_refl eq_refl eq_refl)).
    right. lra.
  - apply (proj2 (mc_level_bounds ex_iterate cube_volume _ (1, 1, 1)
                    (fold_left Rmin [0; 0; 0; 0; 0; 0; 0] 1)
                    (fold_left Rmax [0; 0; 0; 0; 0; 0; 0] 1) eq_refl eq_refl eq_refl)).
    right. reflexivity.
Defined.

(** C8 on a 2-d volume. *)
Lemma mc_requires_3d_witness :
  marching_cubes ex_iterate (mkArray [2; 2]%nat [0; 1; 0; 1]) 0 (1, 1, 1) = Err dimension_error.
Proof. apply mc_requires_3d. discriminate. Defined.

(** C9 on [cube_volume] at level 1/2 with the one-triangle traversal. *)
Lemma mc_mesh_invariant_witness :
  (forall f, In f (snd (unpack_unique_verts [ex_triangle])) ->
     face_in_bounds (List.length (fst (unpack_unique_verts [ex_triangle]))) f) /\
  NoDup (fst (unpack_unique_verts [ex_triangle])).
Proof.
  apply (mc_mesh_invariant ex_iterate cube_volume (1 / 2) (1, 1, 1)).
  rewrite (mc_accepts ex_iterate cube_volume (1 / 2) (1, 1, 1)
             (fold_left Rmin [0; 0; 0; 0; 0; 0; 0] 1)
             (fold_left Rmax [0; 0; 0; 0; 0; 0; 0] 1) eq_refl eq_refl eq_refl).
  - rewrite <- surjective_pairing. reflexivity.
  - pose proof (fold_min_le_in [0; 0; 0; 0; 0; 0; 0] 1 0 (or_introl eq_refl)).
    pose proof (fold_max_ge [0; 0; 0; 0; 0; 0; 0] 1). lra.
Defined.

(** * Further properties of the code *)

(** ** [mesh_surface_area] *)

Lemma all_resolve_spec (vs : list vec3) (fs : list face) :
  all_resolve vs fs = true <-> forall f, In f fs -> resolve vs f <> None.
Proof.
  unfold all_resolve. rewrite forallb_forall. split; intros H f Hin; specialize (H f Hin).
  - destruct (resolve vs f); [discriminate | discriminate H].
  - destruct (resolve vs f); [reflexivity | congruence].
Qed.

Lemma msa_ok_aux (verts : list vec3) (faces : list face) :
  (forall f, In f faces -> resolve verts f <> None) ->
  mesh_surface_area verts faces = Ok (np_sum (map (face_area verts) faces)).
Proof.
  intros Hres. destruct (gather_ok verts faces Hres) as [ts [Hg HF]].
  unfold mesh_surface_area. rewrite Hg. cbn [bind]. f_equal.
  rewrite map2_map, map_map, np_sum_half.
  clear Hg Hres. induction HF as [|f t fs ts Hft _ IH]; cbn [map np_sum fold_right];
    [reflexivity|].
  unfold np_sum in IH. rewrite IH. f_equal.
  unfold face_area. rewrite Hft. destruct t as [[v0 v1] v2]. reflexivity.
Qed.

(** [mesh_surface_area] in one equation: the sum of the face areas when
    every index is in range, the IndexError of [verts[faces]] otherwise. *)
Lemma msa_char (verts : list vec3) (faces : list face) :
  mesh_surface_area verts faces
  = if all_resolve verts faces then Ok (np_sum (map (face_area verts) faces))
    else Err (IndexError "index out of bounds"%string).
Proof.
  destruct (all_resolve verts faces) eqn:E.
  - apply msa_ok_aux. now apply all_resolve_spec.
  - unfold mesh_surface_area.
    destruct (gather verts faces) as [ts|e] eqn:G; cbn [bind].
    + exfalso. assert (H : all_resolve verts faces = true)
        by (apply all_resolve_spec; exact (gather_resolves verts faces ts G)).
      congruence.
    + now rewrite (gather_err_index _ _ _ G).
Qed.

(** X1: [mesh_surface_area] fails exactly when some face has an index that
    Python indexing rejects, and then always with the IndexError of
    [verts[faces]]. *)
Theorem msa_index_error (verts : list vec3) (faces : list face) :
  ((exists e, mesh_surface_area verts faces = Err e) <->
   exists f, In f faces /\ resolve verts f = None) /\
  (forall e, mesh_surface_area verts faces = Err e ->
   e = IndexError "index out of bounds"%string).
Proof.
  rewrite msa_char. split.
  - split.
    + intros [e He]. destruct (all_resolve verts faces) eqn:E; [discriminate|].
      destruct (existsb (fun f => match resolve verts f with Some _ => false | None => true end)
                  faces) eqn:X.
      * apply existsb_exists in X as [f [Hin Hf]].
        exists f. split; [exact Hin|]. destruct (resolve verts f); [discriminate | reflexivity].
      * exfalso. assert (H : all_resolve verts faces = true).
        { apply all_resolve_spec. intros f Hin Hf.
          assert (Hx : existsb (fun f => match resolve verts f with
                                          Some _ => false | None => true end) faces = true)
            by (apply existsb_exists; exists f; now rewrite Hf).
          congruence. }
        congruence.
    + intros [f [Hin Hf]]. destruct (all_resolve verts faces) eqn:E.
      * exfalso. rewrite all_resolve_spec in E. exact (E f Hin Hf).
      * now eexists.
  - intros e. destruct (all_resolve verts faces); [discriminate|]. congruence.
Qed.

Lemma py_index_norm {A} (l : list A) (i : Z) :
  py_index l (norm_index (List.length l) i) = py_index l i.
Proof.
  unfold py_index, norm_index. cbv zeta.
  assert (Hn : (0 <= Z.of_nat (List.length l))%Z) by lia.
  set (n := Z.of_nat (List.length l)).
  destruct (Z.leb_spec (- n) i), (Z.ltb_spec i 0); cbn [andb].
  all: repeat (match goal with
          | |- context [Z.leb ?a ?b] => destruct (Z.leb_spec a b)
          | |- context [Z.ltb ?a ?b] => destruct (Z.ltb_spec a b)
          end; cbn [andb] in *); try lia; try reflexivity.
  all: f_equal; f_equal; lia.
Qed.

(** X2: negative face indices are not rejected: an index [i] with
    [-V <= i < 0] names vertex [V + i], so replacing it by [V + i] leaves
    [mesh_surface_area] unchanged. *)
Theorem msa_negative_indices (verts : list vec3) (faces : list face) :
  mesh_surface_area verts (map (norm_face (List.length verts)) faces)
  = mesh_surface_area verts faces.
Proof.
  assert (Hr : forall f, resolve verts (norm_face (List.length verts) f) = resolve verts f).
  { intros [[i0 i1] i2]. simpl. now rewrite !py_index_norm. }
  rewrite !msa_char.
  assert (Ha : all_resolve verts (map (norm_face (List.length verts)) faces)
               = all_resolve verts faces).
  { unfold all_resolve. induction faces as [|f fs IH]; [reflexivity|].
    cbn [map forallb]. now rewrite Hr, IH. }
  rewrite Ha, map_map. destruct (all_resolve verts faces); [|reflexivity].
  f_equal. f_equal. apply map_ext. intros f. unfold face_area. now rewrite Hr.
Qed.

Lemma face_reorder (vs : list vec3) (f f' : face) :
  reorder3 f f' ->
  (resolve vs f' = None <-> resolve vs f = None) /\ face_area vs f' = face_area vs f.
Proof.
  destruct f as [[a b] c]. unfold reorder3, face_area.
  intros H; repeat destruct H as [->|H]; subst; cbn [resolve];
    destruct (py_index vs a) as [[[xa ya] za]|], (py_index vs b) as [[[xb yb] zb]|],
             (py_index vs c) as [[[xc yc] zc]|];
    (split; [split; congruence|]); try reflexivity;
    cbn [sumsq cross vsub]; f_equal; f_equal; ring.
Qed.

Lemma all_resolve_reorder (vs : list vec3) (fs fs' : list face) :
  Forall2 reorder3 fs fs' -> all_resolve vs fs' = all_resolve vs fs.
Proof.
  induction 1 as [|f f' fs fs' Hf _ IH]; [reflexivity|].
  unfold all_resolve in *. cbn [forallb]. rewrite IH. f_equal.
  destruct (face_reorder vs f f' Hf) as [[H1 H2] _].
  destruct (resolve vs f'), (resolve vs f); try reflexivity.
  - now specialize (H2 eq_refl).
  - now specialize (H1 eq_refl).
Qed.

Lemma area_sum_reorder (vs : list vec3) (fs fs' : list face) :
  Forall2 reorder3 fs fs' ->
  np_sum (map (face_area vs) fs') = np_sum (map (face_area vs) fs).
Proof.
  induction 1 as [|f f' fs fs' Hf _ IH]; [reflexivity|].
  unfold np_sum in *. cbn [map fold_right]. rewrite IH.
  now rewrite (proj2 (face_reorder vs f f' Hf)).
Qed.

Lemma msa_reorder_aux (verts : list vec3) (faces faces' : list face) :
  Forall2 reorder3 faces faces' ->
  mesh_surface_area verts faces' = mesh_surface_area verts faces.
Proof.
  intros H. rewrite !msa_char, (all_resolve_reorder verts _ _ H).
  now rewrite (area_sum_reorder verts _ _ H).
Qed.

(** X3: the order in which a face lists its three indices does not matter:
    replacing each face by any reordering of its indices leaves
    [mesh_surface_area] unchanged, error or area. *)
Theorem msa_reorder_invariant (verts : list vec3) (faces faces' : list face) :
  Forall2 reorder3 faces faces' ->
  mesh_surface_area verts faces' = mesh_surface_area verts faces.
Proof.
  intros H. rewrite !msa_char, (all_resolve_reorder verts _ _ H).
  now rewrite (area_sum_reorder verts _ _ H).
Qed.

Lemma py_index_map {A B} (g : A -> B) (l : list A) (i : Z) :
  py_index (map g l) i = option_map g (py_index l i).
Proof.
  unfold py_index. rewrite length_map.
  destruct ((0 <=? i)%Z && (i <? Z.of_nat (List.length l))%Z);
    [|destruct ((- Z.of_nat (List.length l) <=? i)%Z && (i <? 0)%Z)];
    try apply nth_error_map; reflexivity.
Qed.

Lemma resolve_map (g : vec3 -> vec3) (vs : list vec3) (f : face) :
  resolve (map g vs) f
  = option_map (fun t : tri => let '(v0, v1, v2) := t in (g v0, g v1, g v2)) (resolve vs f).
Proof.
  destruct f as [[a b] c]. cbn [resolve]. rewrite !py_index_map.
  destruct (py_index vs a), (py_index vs b), (py_index vs c); reflexivity.
Qed.

Lemma all_resolve_map (g : vec3 -> vec3) (vs : list vec3) (fs : list face) :
  all_resolve (map g vs) fs = all_resolve vs fs.
Proof.
  unfold all_resolve. induction fs as [|f fs IH]; [reflexivity|].
  cbn [forallb]. rewrite IH, resolve_map. now destruct (resolve vs f).
Qed.

Lemma np_sum_scale (k : R) (g : face -> R) (fs : list face) :
  np_sum (map (fun f => k * g f) fs) = k * np_sum (map g fs).
Proof.
  unfold np_sum. induction fs as [|f fs IH]; cbn [map fold_right]; [ring|].
  rewrite IH. ring.
Qed.

Lemma vsub_vadd (a b d : vec3) : vsub (vadd a d) (vadd b d) = vsub a b.
Proof.
  destruct a as [[xa ya] za], b as [[xb yb] zb], d as [[dx dy] dz]. cbn [vadd vsub].
  f_equal; [f_equal|]; ring.
Qed.

(** X4: moving every vertex by the same offset [d] leaves
    [mesh_surface_area] unchanged. *)
Theorem msa_translate_invariant (verts : list vec3) (faces : list face) (d : vec3) :
  mesh_surface_area (map (fun v => vadd v d) verts) faces = mesh_surface_area verts faces.
Proof.
  rewrite !msa_char, all_resolve_map.
  destruct (all_resolve verts faces); [|reflexivity]. do 2 f_equal.
  apply map_ext. intros f. unfold face_area. rewrite resolve_map.
  destruct (resolve verts f) as [[[v0 v1] v2]|]; [|reflexivity]. cbn [option_map].
  now rewrite !vsub_vadd.
Qed.

(** X5: scaling every vertex coordinate by [s] scales the area by [s * s]
    and keeps any index error. *)
Theorem msa_scale (verts : list vec3) (faces : list face) (s : R) :
  mesh_surface_area (map (vscale s) verts) faces
  = match mesh_surface_area verts faces with
    | Ok a => Ok (s * s * a)
    | Err e => Err e
    end.
Proof.
  rewrite !msa_char, all_resolve_map.
  destruct (all_resolve verts faces); [|reflexivity]. f_equal.
  rewrite <- np_sum_scale. f_equal. apply map_ext. intros f.
  unfold face_area. rewrite resolve_map.
  destruct (resolve verts f) as [[[v0 v1] v2]|]; cbn [option_map]; [|ring].
  destruct v0 as [[x0 y0] z0], v1 as [[x1 y1] z1], v2 as [[x2 y2] z2]. cbn [vscale vsub].
  set (c := cross (x0 - x1, y0 - y1, z0 - z1) (x0 - x2, y0 - y2, z0 - z2)).
  assert (Hc : sumsq (cross (s * x0 - s * x1, s * y0 - s * y1, s * z0 - s * z1)
                            (s * x0 - s * x2, s * y0 - s * y2, s * z0 - s * z2))
               = (s * s) * (s * s) * sumsq c)
    by (unfold c; cbn [sumsq cross]; ring).
  rewrite Hc, sqrt_mult_alt, sqrt_square.
  - unfold Rdiv. ring.
  - apply Rle_0_sqr.
  - apply Rmult_le_pos; apply Rle_0_sqr.
Qed.

Lemma np_sum_app (l1 l2 : list R) : np_sum (l1 ++ l2) = np_sum l1 + np_sum l2.
Proof.
  unfold np_sum. induction l1 as [|x l1 IH]; cbn [app fold_right]; [ring|].
  rewrite IH. ring.
Qed.

(** X6: the area of a concatenation of face lists is the sum of their
    areas; if either part has an out-of-range index, so does the whole. *)
Theorem msa_app (verts : list vec3) (fs1 fs2 : list face) :
  mesh_surface_area verts (fs1 ++ fs2)
  = match mesh_surface_area verts fs1, mesh_surface_area verts fs2 with
    | Ok a1, Ok a2 => Ok (a1 + a2)
    | Err e, _ | _, Err e => Err e
    end.
Proof.
  rewrite !msa_char. unfold all_resolve at 1. rewrite forallb_app. fold (all_resolve verts fs1).
  fold (all_resolve verts fs2).
  destruct (all_resolve verts fs1), (all_resolve verts fs2); try reflexivity.
  cbn [andb]. now rewrite map_app, np_sum_app.
Qed.

(** ** [correct_mesh_orientation] *)

Lemma reorder3_refl (f : face) : reorder3 f f.
Proof. destruct f as [[a b] c]. now left. Qed.

Lemma reorder3_rev3 (f : face) : reorder3 f (rev3 f).
Proof. destruct f as [[a b] c]. cbn. tauto. Qed.

Section OrientationExtras.

Context {field : Type}.
Variable np_gradient : ndarray -> vec3 -> result (field * field * field).
Variable map_coordinates : field -> vec3 -> R.

Lemma face_flag_false_ok (m : mode) (vs : list vec3) (gx gy gz : field) (f : face) (t : tri) :
  face_flag map_coordinates m vs gx gy gz f = false -> resolve vs f = Some t ->
  ~ misoriented m (face_dot map_coordinates gx gy gz t).
Proof.
  unfold face_flag. intros Hf Ht. rewrite Ht in Hf. now apply flag_of_false.
Qed.

(** A face as [oriented_faces] returns it is no longer flagged. *)
Lemma oriented_face_unflagged (m : mode) (vs : list vec3) (gx gy gz : field) (f : face) :
  resolve vs f <> None ->
  face_flag map_coordinates m vs gx gy gz
    (if face_flag map_coordinates m vs gx gy gz f then rev3 f else f) = false.
Proof.
  intros Hr. destruct (resolve vs f) as [t|] eqn:Ht; [|congruence].
  unfold face_flag at 2. rewrite Ht.
  destruct (flag_of m (face_dot map_coordinates gx gy gz t)) eqn:Hflip.
  - unfold face_flag. rewrite resolve_rev3, Ht. cbn [option_map].
    rewrite face_dot_rev. apply flag_of_false. apply flag_of_true in Hflip.
    destruct m; simpl in *; lra.
  - unfold face_flag. now rewrite Ht.
Qed.

Lemma oriented_face_resolves (m : mode) (vs : list vec3) (gx gy gz : field) (f : face) :
  resolve vs f <> None ->
  resolve vs (if face_flag map_coordinates m vs gx gy gz f then rev3 f else f) <> None.
Proof.
  intros Hr. destruct (face_flag map_coordinates m vs gx gy gz f); [|exact Hr].
  rewrite resolve_rev3. destruct (resolve vs f); [discriminate | congruence].
Qed.

Lemma oriented_faces_reorder (m : mode) (vs : list vec3) (gx gy gz : field) (fs : list face) :
  Forall2 reorder3 fs (oriented_faces map_coordinates m vs gx gy gz fs).
Proof.
  unfold oriented_faces. induction fs as [|f fs IH]; cbn [map]; constructor; [|exact IH].
  destruct (face_flag map_coordinates m vs gx gy gz f);
    [apply reorder3_rev3 | apply reorder3_refl].
Qed.

(** X7: after a call that returns, no face of the returned array is
    mis-oriented for the mode read from [gradient_direction]: every face
    resolves, and its interpolated-gradient dot product is not negative in
    descent mode and not positive in ascent mode. *)
Theorem cmo_output_oriented (volume : ndarray) (h : heap) (va fa : nat) (spacing : vec3)
    (gd : string) (m : mode) (gx gy gz : field) (vs : list vec3) (h' : heap) (r : nat) :
  correct_mesh_orientation np_gradient map_coordinates volume h va fa spacing gd = Ok (h', r) ->
  parse_direction gd = Some m ->
  np_gradient volume spacing = Ok (gx, gy, gz) ->
  nth_error (vheap h) va = Some vs ->
  exists out, nth_error (fheap h') r = Some out /\
    forall f, In f out -> exists t, resolve vs f = Some t /\
      ~ misoriented m (face_dot map_coordinates gx gy gz t).
Proof.
  intros H Hp Hg Hv.
  destruct (cmo_inv np_gradient map_coordinates volume h va fa spacing gd _ H)
    as (m' & gx' & gy' & gz' & vs' & fs & Hp' & Hg' & Hv' & Hf & Hres).
  rewrite Hp in Hp'. injection Hp' as <-.
  rewrite Hg in Hg'. injection Hg' as <- <- <-.
  rewrite Hv in Hv'. injection Hv' as <-.
  rewrite (cmo_ok np_gradient map_coordinates volume h va fa spacing gd m gx gy gz vs fs
             Hp Hg Hv Hf Hres) in H.
  injection H as <- <-.
  exists (oriented_faces map_coordinates m vs gx gy gz fs).
  split; [apply nth_error_last|].
  intros f' Hin. unfold oriented_faces in Hin. apply in_map_iff in Hin as [f [<- Hin]].
  pose proof (oriented_face_resolves m vs gx gy gz f (Hres f Hin)) as Hr.
  destruct (resolve vs _) as [t|] eqn:Ht; [|congruence].
  exists t. split; [reflexivity|].
  exact (face_flag_false_ok m vs gx gy gz _ t
           (oriented_face_unflagged m vs gx gy gz f (Hres f Hin)) Ht).
Qed.

(** X8: the correction is idempotent: calling [correct_mesh_orientation]
    again, with the same volume, vertices, spacing and [gradient_direction],
    on the face array it returned succeeds and returns the same faces. *)
Theorem cmo_idempotent (volume : ndarray) (h : heap) (va fa : nat) (spacing : vec3)
    (gd : string) (h1 : heap) (r1 : nat) :
  correct_mesh_orientation np_gradient map_coordinates volume h va fa spacing gd = Ok (h1, r1) ->
  exists h2 r2,
    correct_mesh_orientation np_gradient map_coordinates volume h1 va r1 spacing gd
    = Ok (h2, r2) /\
    nth_error (fheap h2) r2 = nth_error (fheap h1) r1.
Proof.
  intros H.
  destruct (cmo_inv np_gradient map_coordinates volume h va fa spacing gd _ H)
    as (m & gx & gy & gz & vs & fs & Hp & Hg & Hv & Hf & Hres).
  rewrite (cmo_ok np_gradient map_coordinates volume h va fa spacing gd m gx gy gz vs fs
             Hp Hg Hv Hf Hres) in H.
  injection H as <- <-.
  set (fs1 := oriented_faces map_coordinates m vs gx gy gz fs).
  set (h1 := mkHeap (vheap h) (fheap h ++ [fs1])).
  assert (Hres1 : forall f, In f fs1 -> resolve vs f <> None).
  { intros f' Hin. unfold fs1, oriented_faces in Hin.
    apply in_map_iff in Hin as [f [<- Hin]].
    exact (oriented_face_resolves m vs gx gy gz f (Hres f Hin)). }
  exists (mkHeap (vheap h1) (fheap h1 ++ [oriented_faces map_coordinates m vs gx gy gz fs1])),
    (List.length (fheap h1)).
  split; [exact (cmo_ok np_gradient map_coordinates volume h1 va _ spacing gd m
                   gx gy gz vs fs1 Hp Hg Hv (nth_error_last _ _) Hres1)|].
  unfold h1. cbn [fheap]. rewrite !nth_error_last. f_equal.
  unfold oriented_faces at 1. transitivity (map (fun f => f) fs1); [|apply map_id].
  apply map_ext_in. intros f Hin.
  unfold fs1, oriented_faces in Hin. apply in_map_iff in Hin as [f0 [<- Hin]].
  now rewrite (oriented_face_unflagged m vs gx gy gz f0 (Hres f0 Hin)).
Qed.

(** X9: [correct_mesh_orientation] does not change the surface area: for
    any vertex array, [mesh_surface_area] of the returned faces equals that
    of the input faces (the same area, or the same IndexError). *)
Theorem cmo_preserves_area (volume : ndarray) (h : heap) (va fa : nat) (spacing : vec3)
    (gd : string) (h' : heap) (r : nat) (fs out : list face) (verts : list vec3) :
  correct_mesh_orientation np_gradient map_coordinates volume h va fa spacing gd = Ok (h', r) ->
  nth_error (fheap h) fa = Some fs ->
  nth_error (fheap h') r = Some out ->
  mesh_surface_area verts out = mesh_surface_area verts fs.
Proof.
  intros H Hf0 Hout.
  destruct (cmo_inv np_gradient map_coordinates volume h va fa spacing gd _ H)
    as (m & gx & gy & gz & vs & fs' & Hp & Hg & Hv & Hf & Hres).
  rewrite Hf0 in Hf. injection Hf as <-.
  rewrite (cmo_ok np_gradient map_coordinates volume h va fa spacing gd m gx gy gz vs fs
             Hp Hg Hv Hf0 Hres) in H.
  injection H as <- <-. cbn [fheap] in Hout. rewrite nth_error_last in Hout.
  injection Hout as <-.
  apply msa_reorder_aux, oriented_faces_reorder.
Qed.

(** X10: the order in which [correct_mesh_orientation] fails, whatever
    [gradient_direction] is: an exception of [np.gradient] comes first; once
    the gradient succeeds, a face index out of range raises the IndexError
    of [verts[faces]] before [gradient_direction] is looked at. *)
Theorem cmo_error_order (volume : ndarray) (h : heap) (va fa : nat) (spacing : vec3)
    (gd : string) :
  (forall e, np_gradient volume spacing = Err e ->
   correct_mesh_orientation np_gradient map_coordinates volume h va fa spacing gd = Err e) /\
  (forall gx gy gz vs fs,
     np_gradient volume spacing = Ok (gx, gy, gz) ->
     nth_error (vheap h) va = Some vs ->
     nth_error (fheap h) fa = Some fs ->
     (exists f, In f fs /\ resolve vs f = None) ->
     correct_mesh_orientation np_gradient map_coordinates volume h va fa spacing gd
     = Err (IndexError "index out of bounds"%string)).
Proof.
  split.
  - intros e Hg. unfold correct_mesh_orientation. now rewrite Hg.
  - intros gx gy gz vs fs Hg Hv Hf [f [Hin Hr]].
    unfold correct_mesh_orientation, load_verts, load_faces.
    rewrite Hg, Hv, Hf. cbn [bind].
    destruct (gather vs fs) as [ts|e] eqn:Hgt.
    + exfalso. exact (gather_resolves vs fs ts Hgt f Hin Hr).
    + cbn [bind]. now rewrite (gather_err_index vs fs e Hgt).
Qed.

End OrientationExtras.

(** ** [marching_cubes] *)

Lemma find_vert_nth (v : vec3) (l : list vec3) (i : nat) :
  find_vert v l = Some i -> nth_error l i = Some v.
Proof.
  revert i. induction l as [|w l IH]; intros i H; simpl in H; [discriminate|].
  destruct (vec3_eq_dec v w) as [->|Hne].
  - now injection H as <-.
  - destruct (find_vert v l) as [k|] eqn:E; [|discriminate].
    injection H as <-. exact (IH k eq_refl).
Qed.

Lemma py_index_nat {A} (l : list A) (i : nat) :
  (i < List.length l)%nat -> py_index l (Z.of_nat i) = nth_error l i.
Proof.
  intros Hi. unfold py_index. cbv zeta.
  destruct (Z.leb_spec 0 (Z.of_nat i)); [|lia].
  destruct (Z.ltb_spec (Z.of_nat i) (Z.of_nat (List.length l))); [|lia].
  cbn [andb]. now rewrite Nat2Z.id.
Qed.

Lemma py_index_app {A} (l s : list A) (i : Z) :
  (0 <= i < Z.of_nat (List.length l))%Z -> py_index (l ++ s) i = py_index l i.
Proof.
  intros Hi. unfold py_index. cbv zeta. rewrite length_app.
  destruct (Z.leb_spec 0 i); [|lia].
  destruct (Z.ltb_spec i (Z.of_nat (List.length l + List.length s))); [|lia].
  destruct (Z.ltb_spec i (Z.of_nat (List.length l))); [|lia].
  cbn [andb]. apply nth_error_app1. lia.
Qed.

Lemma resolve_app (vs s : list vec3) (f : face) :
  face_in_bounds (List.length vs) f -> resolve (vs ++ s) f = resolve vs f.
Proof.
  destruct f as [[i0 i1] i2]. intros (H0 & H1 & H2). cbn [resolve].
  now rewrite !py_index_app.
Qed.

Lemma weld_vertex_ext (vs : list vec3) (v : vec3) (vs' : list vec3) (i : Z) :
  weld_vertex vs v = (vs', i) ->
  (exists s, vs' = vs ++ s) /\ (0 <= i < Z.of_nat (List.length vs'))%Z /\
  py_index vs' i = Some v.
Proof.
  unfold weld_vertex. destruct (find_vert v vs) as [k|] eqn:E; intros H; injection H as <- <-.
  - pose proof (find_vert_some v vs k E). split; [exists []; symmetry; apply app_nil_r|].
    split; [lia|]. rewrite py_index_nat by exact H. now apply find_vert_nth.
  - split; [now exists [v]|]. rewrite length_app. cbn [List.length].
    split; [lia|]. rewrite py_index_nat by (rewrite length_app; cbn; lia).
    apply nth_error_last.
Qed.

Lemma weld_triangle_rt (vs : list vec3) (fs : list face) (t : tri) (done : list tri) :
  weld_inv (vs, fs) -> map (resolve vs) fs = map Some done ->
  map (resolve (fst (weld_triangle (vs, fs) t))) (snd (weld_triangle (vs, fs) t))
  = map Some (done ++ [t]).
Proof.
  destruct t as [[v0 v1] v2]. intros [_ Hb] Hrt. cbn [fst snd] in Hb. unfold weld_triangle.
  destruct (weld_vertex vs v0) as [vs0 i0] eqn:E0.
  destruct (weld_vertex vs0 v1) as [vs1 i1] eqn:E1.
  destruct (weld_vertex vs1 v2) as [vs2 i2] eqn:E2. cbn [fst snd].
  destruct (weld_vertex_ext _ _ _ _ E0) as [[s0 ->] [B0 P0]].
  destruct (weld_vertex_ext _ _ _ _ E1) as [[s1 ->] [B1 P1]].
  destruct (weld_vertex_ext _ _ _ _ E2) as [[s2 ->] [B2 P2]].
  rewrite !map_app. f_equal.
  - rewrite <- Hrt. apply map_ext_in. intros f Hin.
    rewrite <- !app_assoc. apply resolve_app, Hb, Hin.
  - cbn [map resolve]. rewrite P2.
    rewrite (py_index_app ((vs ++ s0) ++ s1) s2 i1) by exact B1. rewrite P1.
    rewrite <- (app_assoc (vs ++ s0) s1 s2), (py_index_app (vs ++ s0) (s1 ++ s2) i0)
      by exact B0.
    now rewrite P0.
Qed.

Lemma unpack_rt_aux (raw : list tri) (st : list vec3 * list face) (done : list tri) :
  weld_inv st -> map (resolve (fst st)) (snd st) = map Some done ->
  map (resolve (fst (fold_left weld_triangle raw st)))
      (snd (fold_left weld_triangle raw st)) = map Some (done ++ raw).
Proof.
  revert st done. induction raw as [|t raw IH]; intros st done Hinv Hrt; cbn [fold_left].
  - now rewrite app_nil_r.
  - replace (done ++ t :: raw) with ((done ++ [t]) ++ raw) by now rewrite <- app_assoc.
    apply IH; [now apply weld_triangle_inv|].
    destruct st as [vs fs]. now apply weld_triangle_rt.
Qed.

(** The welded mesh gives back the raw triangles, one face per triangle. *)
Lemma unpack_rt (raw : list tri) :
  map (resolve (fst (unpack_unique_verts raw))) (snd (unpack_unique_verts raw))
  = map Some raw.
Proof.
  unfold unpack_unique_verts. apply (unpack_rt_aux raw ([], []) []); [|reflexivity].
  split; [constructor | intros f []].
Qed.

Lemma mc_ok_unpack (iterate_and_store_3d : ndarray -> R -> vec3 -> list tri)
    (volume : ndarray) (level : R) (spacing : vec3) (verts : list vec3) (faces : list face) :
  marching_cubes iterate_and_store_3d volume level spacing = Ok (verts, faces) ->
  unpack_unique_verts (iterate_and_store_3d volume level spacing) = (verts, faces).
Proof.
  intros H. unfold marching_cubes in H.
  destruct (negb (Nat.eqb (ndim volume) 3)); [discriminate|].
  destruct (np_min (data volume)) as [mn|e]; cbn [bind] in H; [|discriminate].
  destruct (Rltb level mn); [discriminate|].
  destruct (np_max (data volume)) as [mx|e]; cbn [bind] in H; [|discriminate].
  destruct (Rltb mx level); [discriminate|].
  destruct (unpack_unique_verts (iterate_and_store_3d volume level spacing)) as [vs fs].
  now injection H as <- <-.
Qed.


Lemma face_area_tri (vs : list vec3) (fs : list face) (ts : list tri) :
  map (resolve vs) fs = map Some ts -> map (face_area vs) fs = map tri_area ts.
Proof.
  revert ts. induction fs as [|f fs IH]; intros ts H; destruct ts as [|t ts];
    cbn [map] in *; try discriminate; [reflexivity|].
  injection H as Hf H. rewrite (IH ts H). f_equal.
  unfold face_area. rewrite Hf. now destruct t as [[v0 v1] v2].
Qed.

(** X11: a 3-d volume with no samples is rejected by numpy's [.min()]
    with its zero-size ValueError, before the level is looked at. *)
Theorem mc_empty_volume (iterate_and_store_3d : ndarray -> R -> vec3 -> list tri)
    (volume : ndarray) (level : R) (spacing : vec3) :
  ndim volume = 3%nat -> data volume = [] ->
  marching_cubes iterate_and_store_3d volume level spacing
  = Err (ValueError "zero-size array to reduction operation minimum which has no identity"%string).
Proof.
  intros Hd He. unfold marching_cubes. rewrite Hd, He. reflexivity.
Qed.

(** X12: every face of the mesh returned by [marching_cubes] picks out,
    from the returned vertices, the three corners of some raw triangle of
    the traversal. *)
Theorem mc_faces_from_raw (iterate_and_store_3d : ndarray -> R -> vec3 -> list tri)
    (volume : ndarray) (level : R) (spacing : vec3) (verts : list vec3) (faces : list face) :
  marching_cubes iterate_and_store_3d volume level spacing = Ok (verts, faces) ->
  forall f, In f faces ->
    exists t, In t (iterate_and_store_3d volume level spacing) /\ resolve verts f = Some t.
Proof.
  intros H f Hin. pose proof (unpack_rt (iterate_and_store_3d volume level spacing)) as Hrt.
  rewrite (mc_ok_unpack iterate_and_store_3d volume level spacing verts faces H) in Hrt.
  cbn [fst snd] in Hrt.
  assert (Hm : In (resolve verts f) (map Some (iterate_and_store_3d volume level spacing)))
    by (rewrite <- Hrt; now apply in_map).
  apply in_map_iff in Hm as [t [Ht Hin']]. now exists t.
Qed.



Lemma weld_vertex_origin (vs : list vec3) (v : vec3) (vs' : list vec3) (i : Z) :
  weld_vertex vs v = (vs', i) -> forall w, In w vs' -> In w vs \/ w = v.
Proof.
  unfold weld_vertex. destruct (find_vert v vs); intros H; injection H as <- <-;
    intros w Hw; [now left|].
  apply in_app_or in Hw as [Hw|[<-|[]]]; [now left | now right].
Qed.

Lemma unpack_origin_aux (raw : list tri) (st : list vec3 * list face) (done : list tri) :
  (forall w, In w (fst st) ->
     exists t, In t done /\ (w = corner0 t \/ w = corner1 t \/ w = corner2 t)) ->
  forall w, In w (fst (fold_left weld_triangle raw st)) ->
    exists t, In t (done ++ raw) /\ (w = corner0 t \/ w = corner1 t \/ w = corner2 t).
Proof.
  revert st done. induction raw as [|t raw IH]; intros st done Hst; cbn [fold_left].
  - rewrite app_nil_r. exact Hst.
  - replace (done ++ t :: raw) with ((done ++ [t]) ++ raw) by now rewrite <- app_assoc.
    apply IH. destruct st as [vs fs], t as [[v0 v1] v2]. unfold weld_triangle.
    destruct (weld_vertex vs v0) as [vs0 i0] eqn:E0.
    destruct (weld_vertex vs0 v1) as [vs1 i1] eqn:E1.
    destruct (weld_vertex vs1 v2) as [vs2 i2] eqn:E2. cbn [fst] in *.
    intros w Hw.
    destruct (weld_vertex_origin _ _ _ _ E2 w Hw) as [Hw1| ->];
      [destruct (weld_vertex_origin _ _ _ _ E1 w Hw1) as [Hw0| ->];
       [destruct (weld_vertex_origin _ _ _ _ E0 w Hw0) as [Hw'| ->]|]|].
    + destruct (Hst w Hw') as [t [Ht Hc]]. exists t. split; [|exact Hc].
      apply in_or_app. now left.
    + exists (v0, v1, v2). split; [apply in_or_app; right; now left | cbn; tauto].
    + exists (v0, v1, v2). split; [apply in_or_app; right; now left | cbn; tauto].
    + exists (v0, v1, v2). split; [apply in_or_app; right; now left | cbn; tauto].
Qed.

(** X15: [marching_cubes] invents no vertex: every returned vertex is a
    corner of some raw triangle of the traversal. *)
Theorem mc_verts_from_raw (iterate_and_store_3d : ndarray -> R -> vec3 -> list tri)
    (volume : ndarray) (level : R) (spacing : vec3) (verts : list vec3) (faces : list face) :
  marching_cubes iterate_and_store_3d volume level spacing = Ok (verts, faces) ->
  forall v, In v verts ->
    exists t, In t (iterate_and_store_3d volume level spacing) /\
      (v = corner0 t \/ v = corner1 t \/ v = corner2 t).
Proof.
  intros H v Hv.
  pose proof (mc_ok_unpack iterate_and_store_3d volume level spacing verts faces H) as Hu.
  unfold unpack_unique_verts in Hu.
  apply (unpack_origin_aux (iterate_and_store_3d volume level spacing) ([], []) []);
    [intros w []|]. now rewrite Hu.
Qed.

Lemma np_sum_perm (l l' : list R) : Permutation l l' -> np_sum l' = np_sum l.
Proof.
  unfold np_sum. induction 1; cbn [fold_right]; try lra.
Qed.

(** X16: the order of the faces does not matter: [mesh_surface_area] of
    any permutation of the face list equals that of the list. *)
Theorem msa_perm_invariant (verts : list vec3) (faces faces' : list face) :
  Permutation faces faces' ->
  mesh_surface_area verts faces' = mesh_surface_area verts faces.
Proof.
  intros HP. rewrite !msa_char.
  assert (Ha : all_resolve verts faces' = all_resolve verts faces).
  { destruct (all_resolve verts faces) eqn:E.
    - apply all_resolve_spec. rewrite all_resolve_spec in E. intros f Hin.
      apply E. apply (Permutation_in f (Permutation_sym HP) Hin).
    - destruct (all_resolve verts faces') eqn:E'; [|reflexivity].
      rewrite all_resolve_spec in E'.
      assert (Ht : all_resolve verts faces = true).
      { apply all_resolve_spec. intros f Hin. apply E'. exact (Permutation_in f HP Hin). }
      congruence. }
  rewrite Ha. destruct (all_resolve verts faces); [|reflexivity].
  f_equal. apply np_sum_perm. now apply Permutation_map.
Qed.

Lemma tri_area_zero_cross (v0 v1 v2 : vec3) :
  tri_area (v0, v1, v2) = 0 -> cross (vsub v0 v1) (vsub v0 v2) = (0, 0, 0).
Proof.
  unfold tri_area. set (c := cross (vsub v0 v1) (vsub v0 v2)). clearbody c.
  intros H. assert (Hs : sqrt (sumsq c) = 0) by lra.
  destruct c as [[cx cy] cz]. cbn [sumsq] in Hs.
  apply sqrt_eq_0 in Hs; [|nra].
  assert (cx = 0) by nra. assert (cy = 0) by nra. assert (cz = 0) by nra. subst. reflexivity.
Qed.

Section OrientationDegenerate.

Context {field : Type}.
Variable np_gradient : ndarray -> vec3 -> result (field * field * field).
Variable map_coordinates : field -> vec3 -> R.

Lemma face_dot_degenerate (gx gy gz : field) (t : tri) :
  tri_area t = 0 -> face_dot map_coordinates gx gy gz t = 0.
Proof.
  destruct t as [[v0 v1] v2]. intros H. unfold face_dot.
  rewrite (tri_area_zero_cross v0 v1 v2 H).
  set (g := normalize _). destruct g as [[x y] z].
  unfold normalize, vdiv, dot. cbn [sumsq]. unfold Rdiv. ring.
Qed.

(** X17: [correct_mesh_orientation] never reverses a degenerate face (one
    whose corners span zero area), in either mode: its row of the returned
    array is the input row. *)
Theorem cmo_keeps_degenerate (volume : ndarray) (h : heap) (va fa : nat) (spacing : vec3)
    (gd : string) (h' : heap) (r : nat) (vs : list vec3) (fs out : list face)
    (j : nat) (f : face) (t : tri) :
  correct_mesh_orientation np_gradient map_coordinates volume h va fa spacing gd = Ok (h', r) ->
  nth_error (vheap h) va = Some vs -> nth_error (fheap h) fa = Some fs ->
  nth_error (fheap h') r = Some out ->
  nth_error fs j = Some f -> resolve vs f = Some t -> tri_area t = 0 ->
  nth_error out j = Some f.
Proof.
  intros H Hv0 Hf0 Hout Hj Ht Ha.
  destruct (cmo_inv np_gradient map_coordinates volume h va fa spacing gd _ H)
    as (m & gx & gy & gz & vs' & fs' & Hp & Hg & Hv & Hf & Hres).
  rewrite Hv0 in Hv. injection Hv as <-. rewrite Hf0 in Hf. injection Hf as <-.
  rewrite (cmo_ok np_gradient map_coordinates volume h va fa spacing gd m gx gy gz vs fs
             Hp Hg Hv0 Hf0 Hres) in H.
  injection H as <- <-. cbn [fheap] in Hout. rewrite nth_error_last in Hout.
  injection Hout as <-. unfold oriented_faces. rewrite nth_error_map, Hj. cbn [option_map].
  unfold face_flag. rewrite Ht, (face_dot_degenerate gx gy gz t Ha).
  destruct m; cbn [flag_of]; unfold Rltb; destruct (Rlt_dec 0 0); try lra; reflexivity.
Qed.

End OrientationDegenerate.

(** * Examples for the further properties *)

Lemma ex_cmo_ascent :
  correct_mesh_orientation np_gradient_model const_x_gradient cube_volume ex_heap 0%nat 0%nat
    (1, 1, 1) "ascent"
  = Ok (mkHeap (vheap ex_heap)
          (fheap ex_heap ++ [oriented_faces const_x_gradient Ascent ex_verts 0%nat 1%nat 2%nat
                               [ex_face]]),
        List.length (fheap ex_heap)).
Proof.
  exact (cmo_ok np_gradient_model const_x_gradient cube_volume ex_heap 0%nat 0%nat (1, 1, 1)
           "ascent" Ascent 0%nat 1%nat 2%nat ex_verts [ex_face]
           eq_refl eq_refl eq_refl eq_refl ex_resolvable).
Qed.

Lemma ex_mc_ok :
  marching_cubes ex_iterate cube_volume (1 / 2) (1, 1, 1)
  = Ok (fst (unpack_unique_verts [ex_triangle]), snd (unpack_unique_verts [ex_triangle])).
Proof.
  rewrite (mc_accepts ex_iterate cube_volume (1 / 2) (1, 1, 1)
             (fold_left Rmin [0; 0; 0; 0; 0; 0; 0] 1)
             (fold_left Rmax [0; 0; 0; 0; 0; 0; 0] 1) eq_refl eq_refl eq_refl).
  - f_equal. apply surjective_pairing.
  - pose proof (fold_min_le_in [0; 0; 0; 0; 0; 0; 0] 1 0 (or_introl eq_refl)).
    pose proof (fold_max_ge [0; 0; 0; 0; 0; 0; 0] 1). lra.
Qed.

(** X3 on the example face and its reversal. *)
Lemma msa_reorder_invariant_witness :
  Forall2 reorder3 [ex_face] [rev3 ex_face] /\
  mesh_surface_area ex_verts [rev3 ex_face] = mesh_surface_area ex_verts [ex_face].
Proof.
  assert (H : Forall2 reorder3 [ex_face] [rev3 ex_face])
    by (constructor; [cbn; tauto | constructor]).
  split; [exact H | exact (msa_reorder_invariant ex_verts _ _ H)].
Defined.

(** X7 on the example mesh in ascent mode. *)
Lemma cmo_output_oriented_witness :
  exists h' r out,
    correct_mesh_orientation np_gradient_model const_x_gradient cube_volume ex_heap 0%nat 0%nat
      (1, 1, 1) "ascent" = Ok (h', r) /\
    nth_error (fheap h') r = Some out /\
    forall f, In f out -> exists t, resolve ex_verts f = Some t /\
      ~ misoriented Ascent (face_dot const_x_gradient 0%nat 1%nat 2%nat t).
Proof.
  destruct (cmo_output_oriented np_gradient_model const_x_gradient cube_volume ex_heap
              0%nat 0%nat (1, 1, 1) "ascent" Ascent 0%nat 1%nat 2%nat ex_verts _ _
              ex_cmo_ascent eq_refl eq_refl eq_refl) as [out [H1 H2]].
  eexists _, _. exists out. split; [exact ex_cmo_ascent|]. split; [exact H1 | exact H2].
Defined.

(** X8 on the example mesh in ascent mode. *)
Lemma cmo_idempotent_witness :
  exists h1 r1 h2 r2,
    correct_mesh_orientation np_gradient_model const_x_gradient cube_volume ex_heap 0%nat 0%nat
      (1, 1, 1) "ascent" = Ok (h1, r1) /\
    correct_mesh_orientation np_gradient_model const_x_gradient cube_volume h1 0%nat r1
      (1, 1, 1) "ascent" = Ok (h2, r2) /\
    nth_error (fheap h2) r2 = nth_error (fheap h1) r1.
Proof.
  destruct (cmo_idempotent np_gradient_model const_x_gradient cube_volume ex_heap 0%nat 0%nat
              (1, 1, 1) "ascent" _ _ ex_cmo_ascent) as (h2 & r2 & H1 & H2).
  eexists _, _. exists h2, r2. split; [exact ex_cmo_ascent|]. split; [exact H1 | exact H2].
Defined.

(** X9 on the example mesh in ascent mode. *)
Lemma cmo_preserves_area_witness :
  exists h' r out,
    correct_mesh_orientation np_gradient_model const_x_gradient cube_volume ex_heap 0%nat 0%nat
      (1, 1, 1) "ascent" = Ok (h', r) /\
    nth_error (fheap h') r = Some out /\
    mesh_surface_area ex_verts out = mesh_surface_area ex_verts [ex_face].
Proof.
  eexists _, _. exists (oriented_faces const_x_gradient Ascent ex_verts 0%nat 1%nat 2%nat [ex_face]).
  split; [exact ex_cmo_ascent|]. split; [apply nth_error_last|].
  exact (cmo_preserves_area np_gradient_model const_x_gradient cube_volume ex_heap 0%nat 0%nat
           (1, 1, 1) "ascent" _ _ [ex_face] _ ex_verts ex_cmo_ascent eq_refl
           (nth_error_last _ _)).
Defined.

(** X10: on a 1x1x1 volume the gradient error comes first; on [bad_heap]
    the IndexError comes before the unknown direction is looked at. *)
Lemma cmo_error_order_witness :
  correct_mesh_orientation np_gradient_model const_x_gradient point_volume ex_heap 0%nat 0%nat
    (1, 1, 1) "sideways"
  = Err (ValueError "Shape of array too small to calculate a numerical gradient, at least (edge_order + 1) elements are required."%string) /\
  correct_mesh_orientation np_gradient_model const_x_gradient cube_volume bad_heap 0%nat 0%nat
    (1, 1, 1) "sideways" = Err (IndexError "index out of bounds"%string).
Proof.
  split.
  - apply (proj1 (cmo_error_order np_gradient_model const_x_gradient point_volume ex_heap
                    0%nat 0%nat (1, 1, 1) "sideways")).
    reflexivity.
  - apply (proj2 (cmo_error_order np_gradient_model const_x_gradient cube_volume bad_heap
                    0%nat 0%nat (1, 1, 1) "sideways") 0%nat 1%nat 2%nat ex_verts [(0, 1, 5)%Z]);
      [reflexivity | reflexivity | reflexivity |].
    exists (0, 1, 5)%Z. split; [now left | reflexivity].
Defined.

(** X11 on a 0x2x2 volume. *)
Lemma mc_empty_volume_witness :
  marching_cubes ex_iterate (mkArray [0; 2; 2]%nat []) 0 (1, 1, 1)
  = Err (ValueError "zero-size array to reduction operation minimum which has no identity"%string).
Proof. apply mc_empty_volume; reflexivity. Defined.


(** X12 on [cube_volume] at level 1/2 with the one-triangle traversal. *)
Lemma mc_faces_from_raw_witness :
  Forall (fun f => exists t, In t [ex_triangle] /\
                     resolve (fst (unpack_unique_verts [ex_triangle])) f = Some t)
    (snd (unpack_unique_verts [ex_triangle])).
Proof.
  apply Forall_forall.
  exact (mc_faces_from_raw ex_iterate cube_volume (1 / 2) (1, 1, 1) _ _ ex_mc_ok).
Defined.



(** X15 on the same call. *)
Lemma mc_verts_from_raw_witness :
  Forall (fun v => exists t, In t [ex_triangle] /\ (v = corner0 t \/ v = corner1 t \/ v = corner2 t))
    (fst (unpack_unique_verts [ex_triangle])).
Proof.
  apply Forall_forall.
  exact (mc_verts_from_raw ex_iterate cube_volume (1 / 2) (1, 1, 1) _ _ ex_mc_ok).
Defined.

(** X16 on two faces listed in both orders. *)
Lemma msa_perm_invariant_witness :
  mesh_surface_area ex_verts [(2, 0, 1)%Z; ex_face]
  = mesh_surface_area ex_verts [ex_face; (2, 0, 1)%Z].
Proof. apply msa_perm_invariant. apply perm_swap. Defined.

(** X17 on [flat_heap] in descent mode: its face is returned as it is. *)
Lemma cmo_keeps_degenerate_witness :
  exists h' r out,
    correct_mesh_orientation np_gradient_model const_x_gradient cube_volume flat_heap 0%nat 0%nat
      (1, 1, 1) "descent" = Ok (h', r) /\
    nth_error (fheap h') r = Some out /\ nth_error out 0%nat = Some (0, 0, 1)%Z.
Proof.
  assert (Hr : forall f, In f [(0, 0, 1)%Z] -> resolve ex_verts f <> None)
    by (intros f [<-|[]]; discriminate).
  pose proof (cmo_ok np_gradient_model const_x_gradient cube_volume flat_heap 0%nat 0%nat
                (1, 1, 1) "descent" Descent 0%nat 1%nat 2%nat ex_verts [(0, 0, 1)%Z]
                eq_refl eq_refl eq_refl eq_refl Hr) as Hok.
  eexists _, _. exists (oriented_faces const_x_gradient Descent ex_verts 0%nat 1%nat 2%nat [(0, 0, 1)%Z]).
  split; [exact Hok|]. split; [apply nth_error_last|].
  apply (cmo_keeps_degenerate np_gradient_model const_x_gradient cube_volume flat_heap 0%nat 0%nat
           (1, 1, 1) "descent" _ _ ex_verts [(0, 0, 1)%Z] _ 0%nat (0, 0, 1)%Z
           ((0, 0, 0), (0, 0, 0), (0, 1, 0)) Hok eq_refl eq_refl (nth_error_last _ _)
           eq_refl eq_refl).
  unfold tri_area, cross, vsub, sumsq.
  match goal with |- sqrt ?x / 2 = 0 => replace x with 0 by ring end.
  rewrite sqrt_0. lra.
Defined.
